(** * The IULIA interpreter (libjulia/interpreter/Interpreter.cpp)

    A shallow embedding of the tree-walking interpreter: the statement
    visitor [Interpreter] and the expression visitor [ExpressionEvaluator].
    Words are [Z] reduced modulo [2^256]; [std::map] is [gmap], [std::set]
    is [gset]; a failed [solAssert] or a thrown exception is [Fatal].
    Recursion of the visitors is unbounded in the source (loops, recursive
    calls), so both visitors take a fuel argument; [OutOfFuel] is the only
    result that does not exist in the source. *)

From Stdlib Require Import ZArith List Ascii String Lia.
From stdpp Require Import base option list gmap strings.

Local Open Scope Z_scope.

(** ** Results of fallible computations *)

Inductive result (A : Type) : Type :=
| Ok (a : A)
| Fatal
| OutOfFuel.
Arguments Ok {A} a.
Arguments Fatal {A}.
Arguments OutOfFuel {A}.

#[global] Instance result_ret : MRet result := fun _ a => Ok a.
#[global] Instance result_bind : MBind result := fun _ _ f r =>
  match r with
  | Ok a => f a
  | Fatal => Fatal
  | OutOfFuel => OutOfFuel
  end.

(** [solAssert(c, "")] *)
Definition solAssert (c : bool) : result unit :=
  if c then Ok tt else Fatal.

(** A loop over a vector, threading the visitor's state, stopping at the
    first failure. *)
Fixpoint forEach {A S : Type} (body : A -> S -> result S) (l : list A) (s : S)
  : result S :=
  match l with
  | [] => Ok s
  | x :: l' => s' ← body x s; forEach body l' s'
  end.

(** [for (size_t i = start; i < start + count; ++i) body(i)] *)
Fixpoint forRange {S : Type} (start : nat) (count : nat)
  (body : nat -> S -> result S) (s : S) : result S :=
  match count with
  | O => Ok s
  | Datatypes.S c => s' ← body start s; forRange (Datatypes.S start) c body s'
  end.

(** [v.at(i)]: throws when [i] is out of range. *)
Definition at_ {A : Type} (v : list A) (i : nat) : result A :=
  match v !! i with
  | Some x => Ok x
  | None => Fatal
  end.

(** ** Words *)

Abbreviation u256 := Z (only parsing).
Definition modulus : Z := 2 ^ 256.
Definition wrap (z : Z) : u256 := z mod modulus.

Definition byteOf (c : ascii) : Z := Z.of_N (N_of_ascii c).

Fixpoint asBytes (s : string) : list Z :=
  match s with
  | EmptyString => []
  | String c s' => byteOf c :: asBytes s'
  end.

(** Modelled from the spec: [h256(s, h256::FromBinary, h256::AlignLeft)]
    of libdevcore/FixedHash.h, which is not part of this file. The bytes
    are left-aligned into 32 bytes and zero-padded on the right. *)
Definition h256_alignLeft (b : list Z) : list Z :=
  take 32 b ++ replicate (32 - length b) 0.

(** Modelled from the spec: the conversion of a [h256] to [u256], which
    treats the 32 bytes as a big-endian byte sequence. *)
Definition fromBigEndian (bs : list Z) : Z :=
  fold_left (fun acc b => acc * 256 + b) bs 0.

(** The big-endian bytes of a word, most significant first. *)
Fixpoint toBigEndian (n : nat) (w : Z) : list Z :=
  match n with
  | O => []
  | Datatypes.S n' => toBigEndian n' (w / 256) ++ [w mod 256]
  end.

(** Modelled from the spec: [u256(std::string)], the constructor of the
    multiprecision word from the decimal or [0x]-prefixed hexadecimal text
    of a number literal; it throws on text that is neither. *)
Definition digitValue (hex : bool) (c : ascii) : option Z :=
  let n := byteOf c in
  if (48 <=? n) && (n <=? 57) then Some (n - 48)
  else if hex && (97 <=? n) && (n <=? 102) then Some (n - 87)
  else if hex && (65 <=? n) && (n <=? 70) then Some (n - 55)
  else None.

Fixpoint parseDigits (hex : bool) (s : string) (acc : Z) : option Z :=
  match s with
  | EmptyString => Some acc
  | String c s' =>
      match digitValue hex c with
      | Some d => parseDigits hex s' (acc * (if hex then 16 else 10) + d)
      | None => None
      end
  end.

Definition u256_of_string (s : string) : result u256 :=
  match s with
  | EmptyString => Fatal
  | String "0" (String "x" EmptyString) => Fatal
  | String "0" (String "x" s') =>
      match parseDigits true s' 0 with
      | Some z => Ok (wrap z)
      | None => Fatal
      end
  | _ =>
      match parseDigits false s 0 with
      | Some z => Ok (wrap z)
      | None => Fatal
      end
  end.

(** ** The syntax tree (libsolidity/inlineasm/AsmData.h)

    The node types are declared outside this file; the fields are the ones
    the interpreter reads. A [shared_ptr] that may be null is an [option]. *)

Inductive LiteralKind : Type := Number | Boolean | String_.

(** Field names carry a prefix where the source reuses a name that the
    visitors also use ([value], [name]). *)
Record Literal : Type := mkLiteral { lit_kind : LiteralKind; lit_value : string }.
Record Identifier : Type := mkIdentifier { id_name : string }.
Record TypedName : Type := mkTypedName { tn_name : string; tn_type : string }.

Set Warnings "-register-all,-clear-no-such-hyp".

Section Syntax.
Variable Instruction : Type.

Inductive Expression : Type :=
| EFunctionalInstruction (instruction : Instruction) (arguments : list Expression)
| EFunctionCall (functionName : Identifier) (arguments : list Expression)
| EIdentifier (identifier : Identifier)
| ELiteral (literal : Literal).

Inductive Statement : Type :=
| SExpressionStatement (expression : Expression)
| SAssignment (variableNames : list Identifier) (value : option Expression)
| SVariableDeclaration (variables : list TypedName) (value : option Expression)
| SFunctionDefinition (definition : FunctionDefinition)
| SIf (condition : option Expression) (body : Block)
| SSwitch (expression : option Expression) (cases : list Case)
| SForLoop (pre : Block) (condition : option Expression) (post : Block) (body : Block)
| SBlock (block : Block)
with Block : Type :=
| mkBlock (statements : list Statement)
with Case : Type :=
| mkCase (value : option Expression) (body : Block)
with FunctionDefinition : Type :=
| mkFunctionDefinition (name : string) (parameters : list TypedName)
    (returnVariables : list TypedName) (body : Block).

Definition statements (b : Block) : list Statement :=
  match b with mkBlock l => l end.

Definition fd_name (f : FunctionDefinition) : string :=
  match f with mkFunctionDefinition n _ _ _ => n end.
Definition fd_parameters (f : FunctionDefinition) : list TypedName :=
  match f with mkFunctionDefinition _ ps _ _ => ps end.
Definition fd_returnVariables (f : FunctionDefinition) : list TypedName :=
  match f with mkFunctionDefinition _ _ rs _ => rs end.
Definition fd_body (f : FunctionDefinition) : Block :=
  match f with mkFunctionDefinition _ _ _ b => b end.

End Syntax.

Arguments EFunctionalInstruction {Instruction} _ _.
Arguments EFunctionCall {Instruction} _ _.
Arguments EIdentifier {Instruction} _.
Arguments ELiteral {Instruction} _.
Arguments SExpressionStatement {Instruction} _.
Arguments SAssignment {Instruction} _ _.
Arguments SVariableDeclaration {Instruction} _ _.
Arguments SFunctionDefinition {Instruction} _.
Arguments SIf {Instruction} _ _.
Arguments SSwitch {Instruction} _ _.
Arguments SForLoop {Instruction} _ _ _ _.
Arguments SBlock {Instruction} _.
Arguments mkBlock {Instruction} _.
Arguments mkCase {Instruction} _ _.
Arguments mkFunctionDefinition {Instruction} _ _ _ _.
Arguments statements {Instruction} _.
Arguments fd_name {Instruction} _.
Arguments fd_parameters {Instruction} _.
Arguments fd_returnVariables {Instruction} _.
Arguments fd_body {Instruction} _.

(** [m.count(k)] of a [std::map]. *)
Definition count {V : Type} (m : gmap string V) (k : string) : nat :=
  match m !! k with
  | Some _ => 1%nat
  | None => 0%nat
  end.

(** [m.at(k)]: throws when the key is absent. *)
Definition mapAt {V : Type} (m : gmap string V) (k : string) : result V :=
  match m !! k with
  | Some v => Ok v
  | None => Fatal
  end.

(** ** The two visitors *)

Section Interpreter.
Context {Instruction InterpreterState : Type}.

(** The word-machine evaluator [EVMInstructionInterpreter::eval], an
    external collaborator: it returns one word, may change the shared
    machine state and may fail. *)
Variable eval : Instruction -> list u256 -> InterpreterState ->
  result (u256 * InterpreterState).

#[local] Abbreviation Expression := (Expression Instruction).
#[local] Abbreviation Statement := (Statement Instruction).
#[local] Abbreviation Block := (Block Instruction).
#[local] Abbreviation Case := (Case Instruction).
#[local] Abbreviation FunctionDefinition := (FunctionDefinition Instruction).

(** [ExpressionEvaluator]: [m_state] is a shared reference, [m_variables]
    and [m_functions] are const references to the maps of the interpreter
    that created it, [m_values] is its own. *)
Record ExpressionEvaluator : Type := mkExpressionEvaluator {
  ev_state : InterpreterState;
  ev_variables : gmap string u256;
  ev_functions : gmap string FunctionDefinition;
  m_values : list u256
}.

(** [Interpreter]: [m_state] is a shared reference, the maps and the scope
    stack are its own. *)
Record Interpreter : Type := mkInterpreterFull {
  m_state : InterpreterState;
  m_variables : gmap string u256;
  m_functions : gmap string FunctionDefinition;
  m_scopes : list (gset string)
}.

(** The constructor [Interpreter(_state, _variables, _functions)]. *)
Definition mkInterpreter (st : InterpreterState) (vars : gmap string u256)
  (funs : gmap string FunctionDefinition) : Interpreter :=
  mkInterpreterFull st vars funs [].

Definition withState (st : InterpreterState) (it : Interpreter) : Interpreter :=
  mkInterpreterFull st (m_variables it) (m_functions it) (m_scopes it).
Definition withVariables (vars : gmap string u256) (it : Interpreter) : Interpreter :=
  mkInterpreterFull (m_state it) vars (m_functions it) (m_scopes it).
Definition withFunctions (funs : gmap string FunctionDefinition) (it : Interpreter)
  : Interpreter :=
  mkInterpreterFull (m_state it) (m_variables it) funs (m_scopes it).
Definition withScopes (sc : list (gset string)) (it : Interpreter) : Interpreter :=
  mkInterpreterFull (m_state it) (m_variables it) (m_functions it) sc.

Definition withValues (vs : list u256) (ev : ExpressionEvaluator) : ExpressionEvaluator :=
  mkExpressionEvaluator (ev_state ev) (ev_variables ev) (ev_functions ev) vs.
Definition withEvState (st : InterpreterState) (ev : ExpressionEvaluator)
  : ExpressionEvaluator :=
  mkExpressionEvaluator st (ev_variables ev) (ev_functions ev) (m_values ev).

(** *** Helpers of the header

    Modelled from the spec: [ExpressionEvaluator::setValue], [value],
    [values], [Interpreter::valueOfVariable] and [Interpreter::openScope]
    are defined in Interpreter.h, which is not part of this file.
    [setValue] makes the value list the single given value; [value]
    requires exactly one value; [openScope] pushes an empty frame. *)
Definition setValue (v : u256) (ev : ExpressionEvaluator) : ExpressionEvaluator :=
  withValues [v] ev.

Definition value (ev : ExpressionEvaluator) : result u256 :=
  match m_values ev with
  | [v] => Ok v
  | _ => Fatal
  end.

Definition values (ev : ExpressionEvaluator) : list u256 := m_values ev.

Definition valueOfVariable (it : Interpreter) (name : string) : result u256 :=
  mapAt (m_variables it) name.

Definition openScope (it : Interpreter) : Interpreter :=
  withScopes (m_scopes it ++ [∅]) it.

(** *** ExpressionEvaluator *)

Definition evLiteral (l : Literal) (ev : ExpressionEvaluator)
  : result ExpressionEvaluator :=
  match lit_kind l with
  | Boolean =>
      _ ← solAssert (String.eqb (lit_value l) "true" || String.eqb (lit_value l) "false");
      Ok (setValue (if String.eqb (lit_value l) "true" then 1 else 0) ev)
  | Number =>
      v ← u256_of_string (lit_value l);
      Ok (setValue v ev)
  | String_ =>
      _ ← solAssert (String.length (lit_value l) <=? 32)%nat;
      Ok (setValue (fromBigEndian (h256_alignLeft (asBytes (lit_value l)))) ev)
  end.

Definition evIdentifier (i : Identifier) (ev : ExpressionEvaluator)
  : result ExpressionEvaluator :=
  _ ← solAssert (negb (count (ev_variables ev) (id_name i) =? 0)%nat);
  v ← mapAt (ev_variables ev) (id_name i);
  Ok (setValue v ev).

(** The arguments are visited from the last to the first, each value is
    pushed to a local vector, and the vector is reversed at the end. *)
Definition evaluateArgs
  (visit : Expression -> ExpressionEvaluator -> result ExpressionEvaluator)
  (_expr : list Expression) (ev : ExpressionEvaluator) : result ExpressionEvaluator :=
  '(vs, ev') ← forEach
      (fun expr '(vs, ev) =>
         ev' ← visit expr ev;
         v ← value ev';
         Ok (vs ++ [v], ev'))
      (rev _expr) ([], ev);
  Ok (withValues (rev vs) ev').

Definition evFunctionalInstruction
  (visit : Expression -> ExpressionEvaluator -> result ExpressionEvaluator)
  (instruction : Instruction) (arguments : list Expression) (ev : ExpressionEvaluator)
  : result ExpressionEvaluator :=
  ev1 ← evaluateArgs visit arguments ev;
  '(v, st) ← eval instruction (values ev1) (ev_state ev1);
  Ok (setValue v (withEvState st ev1)).

(** The map [arguments] of a call: parameters first, return variables
    after them. *)
Definition callArguments (fn : FunctionDefinition) (vals : list u256)
  : result (gmap string u256) :=
  args ← forRange 0 (length (fd_parameters fn))
    (fun i args =>
       p ← at_ (fd_parameters fn) i;
       v ← at_ vals i;
       Ok (<[tn_name p := v]> args))
    (∅ : gmap string u256);
  forRange 0 (length (fd_returnVariables fn))
    (fun i args =>
       r ← at_ (fd_returnVariables fn) i;
       Ok (<[tn_name r := 0]> args))
    args.

Definition evFunctionCall
  (visit : Expression -> ExpressionEvaluator -> result ExpressionEvaluator)
  (interpret : Block -> Interpreter -> result Interpreter)
  (functionName : Identifier) (arguments : list Expression) (ev : ExpressionEvaluator)
  : result ExpressionEvaluator :=
  _ ← solAssert (negb (count (ev_functions ev) (id_name functionName) =? 0)%nat);
  ev1 ← evaluateArgs visit arguments ev;
  fn ← mapAt (ev_functions ev1) (id_name functionName);
  _ ← solAssert (length (m_values ev1) =? length (fd_parameters fn))%nat;
  args ← callArguments fn (m_values ev1);
  interpreter ← interpret (fd_body fn)
    (mkInterpreter (ev_state ev1) args (ev_functions ev1));
  vals ← forEach
    (fun retVar vs =>
       v ← valueOfVariable interpreter (tn_name retVar);
       Ok (vs ++ [v]))
    (fd_returnVariables fn) [];
  Ok (withValues vals (withEvState (m_state interpreter) ev1)).

(** *** Interpreter *)

Definition evaluate
  (visit : Expression -> ExpressionEvaluator -> result ExpressionEvaluator)
  (e : Expression) (it : Interpreter) : result (u256 * Interpreter) :=
  ev ← visit e (mkExpressionEvaluator (m_state it) (m_variables it) (m_functions it) []);
  v ← value ev;
  Ok (v, withState (ev_state ev) it).

Definition evaluateMulti
  (visit : Expression -> ExpressionEvaluator -> result ExpressionEvaluator)
  (e : Expression) (it : Interpreter) : result (list u256 * Interpreter) :=
  ev ← visit e (mkExpressionEvaluator (m_state it) (m_variables it) (m_functions it) []);
  Ok (values ev, withState (ev_state ev) it).

(** [closeScope] walks the innermost frame; it does not pop it. Calling it
    on an empty scope stack is undefined in the source and never happens
    (each call follows an [openScope]); the model fails there. *)
Definition closeScope (it : Interpreter) : result Interpreter :=
  match last (m_scopes it) with
  | None => Fatal
  | Some frame =>
      forEach
        (fun var it =>
           _ ← solAssert
             (count (m_variables it) var + count (m_functions it) var =? 1)%nat;
           Ok (withFunctions (delete var (m_functions it))
                 (withVariables (delete var (m_variables it)) it)))
        (elements frame) it
  end.

Definition opExpressionStatement
  (visit : Expression -> ExpressionEvaluator -> result ExpressionEvaluator)
  (e : Expression) (it : Interpreter) : result Interpreter :=
  '(_, it') ← evaluateMulti visit e it;
  Ok it'.

Definition opAssignment
  (visit : Expression -> ExpressionEvaluator -> result ExpressionEvaluator)
  (variableNames : list Identifier) (val : option Expression) (it : Interpreter)
  : result Interpreter :=
  match val with
  | None => Fatal
  | Some e =>
      '(vals, it1) ← evaluateMulti visit e it;
      _ ← solAssert (length vals =? length variableNames)%nat;
      forRange 0 (length vals)
        (fun i it =>
           x ← at_ variableNames i;
           _ ← solAssert (negb (count (m_variables it) (id_name x) =? 0)%nat);
           v ← at_ vals i;
           Ok (withVariables (<[id_name x := v]> (m_variables it)) it))
        it1
  end.

Definition opVariableDeclaration
  (visit : Expression -> ExpressionEvaluator -> result ExpressionEvaluator)
  (variables : list TypedName) (val : option Expression) (it : Interpreter)
  : result Interpreter :=
  '(vals, it1) ←
     match val with
     | None => Ok (replicate (length variables) 0, it)
     | Some e => evaluateMulti visit e it
     end;
  _ ← solAssert (length vals =? length variables)%nat;
  forRange 0 (length vals)
    (fun i it =>
       x ← at_ variables i;
       _ ← solAssert (count (m_variables it) (tn_name x) =? 0)%nat;
       v ← at_ vals i;
       Ok (withVariables (<[tn_name x := v]> (m_variables it)) it))
    it1.

(** [ASTWalker::operator()(Block)] visits the statements in order. *)
Definition opBlock
  (visit : Statement -> Interpreter -> result Interpreter)
  (b : Block) (it : Interpreter) : result Interpreter :=
  let it0 := openScope it in
  (* Register functions. *)
  let it1 :=
    fold_left
      (fun it s =>
         match s with
         | SFunctionDefinition funDef =>
             withFunctions (<[fd_name funDef := funDef]> (m_functions it)) it
         | _ => it
         end)
      (statements b) it0 in
  it2 ← forEach visit (statements b) it1;
  closeScope it2.

Definition opIf
  (visitE : Expression -> ExpressionEvaluator -> result ExpressionEvaluator)
  (visit : Statement -> Interpreter -> result Interpreter)
  (condition : option Expression) (body : Block) (it : Interpreter)
  : result Interpreter :=
  match condition with
  | None => Fatal
  | Some c =>
      '(v, it1) ← evaluate visitE c it;
      if v =? 0 then Ok it1 else opBlock visit body it1
  end.

(** The loop over the cases, left by [break] after the first body run. *)
Fixpoint switchCases
  (visitE : Expression -> ExpressionEvaluator -> result ExpressionEvaluator)
  (visit : Statement -> Interpreter -> result Interpreter)
  (val : u256) (cases : list Case) (it : Interpreter) : result Interpreter :=
  match cases with
  | [] => Ok it
  | mkCase None body :: _ => opBlock visit body it
  | mkCase (Some g) body :: rest =>
      '(v, it1) ← evaluate visitE g it;
      if v =? val then opBlock visit body it1
      else switchCases visitE visit val rest it1
  end.

Definition opSwitch
  (visitE : Expression -> ExpressionEvaluator -> result ExpressionEvaluator)
  (visit : Statement -> Interpreter -> result Interpreter)
  (expression : option Expression) (cases : list Case) (it : Interpreter)
  : result Interpreter :=
  match expression with
  | None => Fatal
  | Some e =>
      '(val, it1) ← evaluate visitE e it;
      switchCases visitE visit val cases it1
  end.

(** The [while] loop of a for-loop; [iterations] bounds the number of
    condition tests. *)
Fixpoint whileLoop (iterations : nat)
  (condition : Interpreter -> result (u256 * Interpreter))
  (step : Interpreter -> result Interpreter) (it : Interpreter) : result Interpreter :=
  match iterations with
  | O => OutOfFuel
  | Datatypes.S k =>
      '(c, it1) ← condition it;
      if c =? 0 then Ok it1
      else it2 ← step it1; whileLoop k condition step it2
  end.

Definition opForLoop (iterations : nat)
  (visitE : Expression -> ExpressionEvaluator -> result ExpressionEvaluator)
  (visit : Statement -> Interpreter -> result Interpreter)
  (pre : Block) (condition : option Expression) (post body : Block) (it : Interpreter)
  : result Interpreter :=
  match condition with
  | None => Fatal
  | Some c =>
      let it0 := openScope it in
      it1 ← forEach visit (statements pre) it0;
      it2 ← whileLoop iterations (evaluate visitE c)
              (fun it => it' ← opBlock visit body it; opBlock visit post it') it1;
      closeScope it2
  end.

(** *** The dispatch of the two visitors *)

Fixpoint visitExpression (fuel : nat) (e : Expression) (ev : ExpressionEvaluator)
  {struct fuel} : result ExpressionEvaluator :=
  match fuel with
  | O => OutOfFuel
  | Datatypes.S n =>
      match e with
      | ELiteral l => evLiteral l ev
      | EIdentifier i => evIdentifier i ev
      | EFunctionalInstruction i args =>
          evFunctionalInstruction (visitExpression n) i args ev
      | EFunctionCall f args =>
          evFunctionCall (visitExpression n) (opBlock (visitStatement n)) f args ev
      end
  end
with visitStatement (fuel : nat) (s : Statement) (it : Interpreter)
  {struct fuel} : result Interpreter :=
  match fuel with
  | O => OutOfFuel
  | Datatypes.S n =>
      match s with
      | SExpressionStatement e => opExpressionStatement (visitExpression n) e it
      | SAssignment names val => opAssignment (visitExpression n) names val it
      | SVariableDeclaration vars val =>
          opVariableDeclaration (visitExpression n) vars val it
      | SFunctionDefinition _ => Ok it
      | SIf c body => opIf (visitExpression n) (visitStatement n) c body it
      | SSwitch e cases => opSwitch (visitExpression n) (visitStatement n) e cases it
      | SForLoop pre c post body =>
          opForLoop n (visitExpression n) (visitStatement n) pre c post body it
      | SBlock b => opBlock (visitStatement n) b it
      end
  end.

End Interpreter.

Arguments mkInterpreter {Instruction InterpreterState} _ _ _.
Arguments mkExpressionEvaluator {Instruction InterpreterState} _ _ _ _.

(** ** A word machine to run programs on

    Modelled from the spec: the word-machine evaluator
    ([EVMInstructionInterpreter]) is not part of this file. The visitors
    take it as the parameter [eval]; this small machine has its interface
    (an instruction and the ordered argument values give one word, the
    shared state may change, unknown uses fail) and is what the example
    programs run on: arithmetic modulo [2^256], comparisons, and a word
    store that [SSTORE] writes and [SLOAD] reads. *)
Module Machine.

Inductive Instruction : Type := ADD | SUB | MUL | LT | EQ | SLOAD | SSTORE.

Definition State : Type := gmap Z Z.

Definition eval (i : Instruction) (args : list u256) (st : State)
  : result (u256 * State) :=
  match i, args with
  | ADD, [a; b] => Ok (wrap (a + b), st)
  | SUB, [a; b] => Ok (wrap (a - b), st)
  | MUL, [a; b] => Ok (wrap (a * b), st)
  | LT, [a; b] => Ok (if a <? b then 1 else 0, st)
  | EQ, [a; b] => Ok (if a =? b then 1 else 0, st)
  | SLOAD, [k] => Ok (default 0 (st !! k), st)
  | SSTORE, [k; v] => Ok (0, <[k := v]> st)
  | _, _ => Fatal
  end.

Definition num (s : string) : Expression Instruction := ELiteral (mkLiteral Number s).
Definition var (s : string) : Expression Instruction := EIdentifier (mkIdentifier s).
Definition call (f : string) (args : list (Expression Instruction)) :=
  EFunctionCall (mkIdentifier f) args.
Definition ins (i : Instruction) (args : list (Expression Instruction)) :=
  EFunctionalInstruction i args.
Definition tn (s : string) : TypedName := mkTypedName s "".
Definition letv (xs : list string) (e : Expression Instruction) : Statement Instruction :=
  SVariableDeclaration (tn <$> xs) (Some e).
Definition assign (xs : list string) (e : Expression Instruction) : Statement Instruction :=
  SAssignment (mkIdentifier <$> xs) (Some e).

Definition factorial : FunctionDefinition Instruction :=
  mkFunctionDefinition "f" [tn "n"] [tn "r"]
    (mkBlock
       [SSwitch (Some (var "n"))
          [mkCase (Some (num "0")) (mkBlock [assign ["r"] (num "1")]);
           mkCase None
             (mkBlock
                [assign ["r"]
                   (ins MUL [var "n"; call "f" [ins SUB [var "n"; num "1"]]])])]]).

(** [for { let i := 0 let j := 1 } lt(i, 3) { i := add(i, 1) }
    { sstore(i, j) }] *)
Definition loopPre : Block Instruction :=
  mkBlock [letv ["i"] (num "0"); letv ["j"] (num "1")].
Definition loopCondition : Expression Instruction := ins LT [var "i"; num "3"].
Definition loopPost : Block Instruction :=
  mkBlock [assign ["i"] (ins ADD [var "i"; num "1"])].
Definition loopBody : Block Instruction :=
  mkBlock [SExpressionStatement (ins SSTORE [var "i"; var "j"])].
Definition loop : Statement Instruction :=
  SForLoop loopPre (Some loopCondition) loopPost loopBody.

Definition isEven : FunctionDefinition Instruction :=
  mkFunctionDefinition "even" [tn "n"] [tn "r"]
    (mkBlock
       [SSwitch (Some (var "n"))
          [mkCase (Some (num "0")) (mkBlock [assign ["r"] (num "1")]);
           mkCase None
             (mkBlock [assign ["r"] (call "odd" [ins SUB [var "n"; num "1"]])])]]).

Definition isOdd : FunctionDefinition Instruction :=
  mkFunctionDefinition "odd" [tn "n"] [tn "r"]
    (mkBlock
       [SSwitch (Some (var "n"))
          [mkCase (Some (num "0")) (mkBlock [assign ["r"] (num "0")]);
           mkCase None
             (mkBlock [assign ["r"] (call "even" [ins SUB [var "n"; num "1"]])])]]).

(** [switch x case 1 { sstore(0, 1) } case 2 { sstore(0, 2) }
    default { sstore(0, 3) }] *)
Definition store (k v : string) : Block Instruction :=
  mkBlock [SExpressionStatement (ins SSTORE [num k; num v])].

Definition switchOn (x : string) : Statement Instruction :=
  SSwitch (Some (num x))
    [mkCase (Some (num "1")) (store "0" "1");
     mkCase (Some (num "2")) (store "0" "2");
     mkCase None (store "0" "3")].

(** [{ let x := 1 }] and [{ { let x := 1 } { let x := 2 } }] *)
Definition scoped (v : string) : Statement Instruction :=
  SBlock (mkBlock [letv ["x"] (num v)]).

Definition siblings : Statement Instruction :=
  SBlock (mkBlock [scoped "1"; scoped "2"]).

(** [{ function g() { } }] *)
Definition emptyFunction : FunctionDefinition Instruction :=
  mkFunctionDefinition "g" [] [] (mkBlock []).

Definition scopedFunction : Statement Instruction :=
  SBlock (mkBlock [SFunctionDefinition emptyFunction]).

(** Two such loops, one after the other, in one block. *)
Definition twoLoops : Statement Instruction :=
  SBlock (mkBlock [loop; loop]).

(** The interpreter the driver starts with. *)
Definition fresh : @Interpreter Instruction State := mkInterpreter ∅ ∅ ∅.

End Machine.


(** * Vocabulary of the statements *)

Section Vocabulary.
Context {Instruction InterpreterState : Type}.

(** The statement declares a name that the variable bindings hold. *)
Definition redeclares (s : Statement Instruction)
  (it : @Interpreter Instruction InterpreterState) : Prop :=
  match s with
  | SVariableDeclaration vars _ =>
      exists x, x ∈ (tn_name <$> vars) /\ is_Some (m_variables it !! x)
  | _ => False
  end.

(** The statement assigns to a name that the variable bindings lack. *)
Definition assignsUndeclared (s : Statement Instruction)
  (it : @Interpreter Instruction InterpreterState) : Prop :=
  match s with
  | SAssignment xs _ =>
      exists x, x ∈ (id_name <$> xs) /\ m_variables it !! x = None
  | _ => False
  end.

Definition rightHandSide (s : Statement Instruction) : option (Expression Instruction) :=
  match s with
  | SVariableDeclaration _ val => val
  | SAssignment _ val => val
  | _ => None
  end.

(** The guards of these cases are evaluated one after the other and none
    equals [val]; every case of the list has a guard. *)
Inductive GuardsMiss
  (visitE : Expression Instruction -> @ExpressionEvaluator Instruction InterpreterState ->
            result (@ExpressionEvaluator Instruction InterpreterState))
  (val : u256)
  : list (Case Instruction) -> @Interpreter Instruction InterpreterState ->
    @Interpreter Instruction InterpreterState -> Prop :=
| miss_nil it : GuardsMiss visitE val [] it it
| miss_cons g body rest it v it1 it2 :
    evaluate visitE g it = Ok (v, it1) ->
    v <> val ->
    GuardsMiss visitE val rest it1 it2 ->
    GuardsMiss visitE val (mkCase (Some g) body :: rest) it it2.

(** [k] times the condition is non-zero and the body, then the post
    block, run; then the condition is zero. *)
Inductive Iterations
  (cond : @Interpreter Instruction InterpreterState ->
          result (u256 * @Interpreter Instruction InterpreterState))
  (body post : @Interpreter Instruction InterpreterState ->
               result (@Interpreter Instruction InterpreterState))
  : nat -> @Interpreter Instruction InterpreterState ->
    @Interpreter Instruction InterpreterState -> Prop :=
| iter_stop it it1 :
    cond it = Ok (0, it1) ->
    Iterations cond body post 0 it it1
| iter_again k it c it1 it2 it3 it4 :
    cond it = Ok (c, it1) ->
    c <> 0 ->
    body it1 = Ok it2 ->
    post it2 = Ok it3 ->
    Iterations cond body post k it3 it4 ->
    Iterations cond body post (S k) it it4.

End Vocabulary.

(** * Properties *)

(** ** The result monad and the loops *)

Lemma bind_Ok_inv {A B : Type} (r : result A) (f : A -> result B) (b : B) :
  (x ← r; f x) = Ok b -> exists a, r = Ok a /\ f a = Ok b.
Proof.
  destruct r as [a| |]; cbn; intros H; try discriminate.
  exists a. split; [reflexivity | exact H].
Qed.

Lemma solAssert_Ok_inv (c : bool) (u : unit) : solAssert c = Ok u -> c = true.
Proof. destruct c; cbn; [reflexivity | discriminate]. Qed.

(** Splits a successful sequence of binds into its steps. *)
Ltac bind_inv H :=
  let a := fresh "a" in
  let Ha := fresh "Hstep" in
  apply bind_Ok_inv in H; destruct H as (a & Ha & H).

Lemma forEach_app {A S : Type} (body : A -> S -> result S) (l1 l2 : list A) (s : S) :
  forEach body (l1 ++ l2) s = (s' ← forEach body l1 s; forEach body l2 s').
Proof.
  revert s. induction l1 as [|x l1 IH]; intros s; cbn; [reflexivity|].
  destruct (body x s) as [s1| |]; cbn; [apply IH | reflexivity | reflexivity].
Qed.

(** An index loop whose body reads the element at its index is the loop
    over the elements. *)
Lemma forRange_forEach {A S : Type} (l : list A) (f : A -> S -> result S)
  (body : nat -> S -> result S) (start : nat) :
  (forall i x s, l !! i = Some x -> body (start + i)%nat s = f x s) ->
  forall s, forRange start (length l) body s = forEach f l s.
Proof.
  revert start. induction l as [|x l IH]; intros start Hbody s; cbn; [reflexivity|].
  rewrite <- (Hbody 0%nat x s eq_refl), Nat.add_0_r.
  destruct (body start s) as [s1| |]; cbn; try reflexivity.
  apply IH. intros i y s2 Hi.
  rewrite <- (Hbody (Datatypes.S i) y s2 Hi). f_equal. lia.
Qed.

Lemma forEach_pure {A S : Type} (body : A -> S -> result S) (g : S -> A -> S) :
  (forall x s, body x s = Ok (g s x)) ->
  forall l s, forEach body l s = Ok (foldl g s l).
Proof.
  intros Hbody l. induction l as [|x l IH]; intros s; cbn; [reflexivity|].
  rewrite Hbody. cbn. apply IH.
Qed.

Lemma at_Some {A : Type} (v : list A) (i : nat) (x : A) :
  v !! i = Some x -> at_ v i = Ok x.
Proof. unfold at_. intros ->. reflexivity. Qed.

Section Facts.
Context {Instruction InterpreterState : Type}.
Variable eval : Instruction -> list u256 -> InterpreterState ->
  result (u256 * InterpreterState).

#[local] Abbreviation Expr := (Expression Instruction).
#[local] Abbreviation Stmt := (Statement Instruction).
#[local] Abbreviation EE := (@ExpressionEvaluator Instruction InterpreterState).
#[local] Abbreviation Interp := (@Interpreter Instruction InterpreterState).

(** ** One step of the dispatch *)

Lemma visitExpression_S (n : nat) (e : Expr) (ev : EE) :
  visitExpression eval (S n) e ev
  = match e with
    | ELiteral l => evLiteral l ev
    | EIdentifier i => evIdentifier i ev
    | EFunctionalInstruction i args =>
        evFunctionalInstruction eval (visitExpression eval n) i args ev
    | EFunctionCall f args =>
        evFunctionCall (visitExpression eval n) (opBlock (visitStatement eval n)) f args ev
    end.
Proof. reflexivity. Qed.

Lemma visitStatement_S (n : nat) (s : Stmt) (it : Interp) :
  visitStatement eval (S n) s it
  = match s with
    | SExpressionStatement e => opExpressionStatement (visitExpression eval n) e it
    | SAssignment xs val => opAssignment (visitExpression eval n) xs val it
    | SVariableDeclaration vars val =>
        opVariableDeclaration (visitExpression eval n) vars val it
    | SFunctionDefinition _ => Ok it
    | SIf c body => opIf (visitExpression eval n) (visitStatement eval n) c body it
    | SSwitch e cases =>
        opSwitch (visitExpression eval n) (visitStatement eval n) e cases it
    | SForLoop pre c post body =>
        opForLoop n (visitExpression eval n) (visitStatement eval n) pre c post body it
    | SBlock b => opBlock (visitStatement eval n) b it
    end.
Proof. reflexivity. Qed.

(** ** Argument evaluation order *)

(** The values pushed so far only prefix what the rest of the loop pushes. *)
Lemma evaluateArgs_loop_acc (visit : Expr -> EE -> result EE) (l : list Expr)
  (vs0 : list u256) (ev : EE) :
  forEach (fun expr '(vs, ev) => ev' ← visit expr ev; v ← value ev'; Ok (vs ++ [v], ev'))
    l (vs0, ev)
  = ('(vs, ev') ← forEach
         (fun expr '(vs, ev) => ev' ← visit expr ev; v ← value ev'; Ok (vs ++ [v], ev'))
         l ([], ev);
     Ok (vs0 ++ vs, ev')).
Proof.
  revert vs0 ev. induction l as [|e l IH]; intros vs0 ev; cbn.
  - rewrite app_nil_r. reflexivity.
  - destruct (visit e ev) as [ev1| |]; cbn; try reflexivity.
    destruct (value ev1) as [v| |]; cbn; try reflexivity.
    rewrite (IH (vs0 ++ [v])), (IH [v]).
    match goal with |- context [forEach ?b l ([], ev1)] =>
      destruct (forEach b l ([], ev1)) as [[vs ev2]| |] end; cbn; try reflexivity.
    rewrite <- app_assoc. reflexivity.
Qed.

Lemma evaluateArgs_nil (visit : Expr -> EE -> result EE) (ev : EE) :
  evaluateArgs visit [] ev = Ok (withValues [] ev).
Proof. reflexivity. Qed.

Lemma evaluateArgs_snoc (visit : Expr -> EE -> result EE) (es : list Expr) (e : Expr)
  (ev : EE) :
  evaluateArgs visit (es ++ [e]) ev
  = (ev1 ← visit e ev;
     v ← value ev1;
     ev2 ← evaluateArgs visit es ev1;
     Ok (withValues (values ev2 ++ [v]) ev2)).
Proof.
  unfold evaluateArgs. rewrite rev_app_distr. cbn.
  destruct (visit e ev) as [ev1| |]; cbn; try reflexivity.
  destruct (value ev1) as [v| |]; cbn; try reflexivity.
  rewrite evaluateArgs_loop_acc.
  match goal with |- context [forEach ?b (rev es) ([], ev1)] =>
    destruct (forEach b (rev es) ([], ev1)) as [[vs ev2]| |] end; cbn; reflexivity.
Qed.

(** ** The evaluator leaves the maps it reads alone *)

Definition sameMaps (ev ev' : EE) : Prop :=
  ev_variables ev' = ev_variables ev /\ ev_functions ev' = ev_functions ev.

Lemma sameMaps_refl (ev : EE) : sameMaps ev ev.
Proof. split; reflexivity. Qed.

Lemma sameMaps_trans (ev1 ev2 ev3 : EE) :
  sameMaps ev1 ev2 -> sameMaps ev2 ev3 -> sameMaps ev1 ev3.
Proof. intros [H1 H2] [H3 H4]. split; congruence. Qed.

Lemma evaluateArgs_sameMaps (visit : Expr -> EE -> result EE) :
  (forall e ev ev', visit e ev = Ok ev' -> sameMaps ev ev') ->
  forall es ev ev', evaluateArgs visit es ev = Ok ev' -> sameMaps ev ev'.
Proof.
  intros Hvisit es. induction es as [|e es IH] using rev_ind; intros ev ev' H.
  - cbn in H. injection H as <-. split; reflexivity.
  - rewrite evaluateArgs_snoc in H.
    bind_inv H. bind_inv H. bind_inv H. injection H as <-.
    apply Hvisit in Hstep. apply IH in Hstep1.
    apply (sameMaps_trans _ _ _ Hstep).
    destruct Hstep1 as [H1 H2]. split; cbn; assumption.
Qed.

Lemma evLiteral_sameMaps (l : Literal) (ev ev' : EE) :
  evLiteral l ev = Ok ev' -> sameMaps ev ev'.
Proof.
  unfold evLiteral. intros H.
  destruct (lit_kind l); bind_inv H; injection H as <-; split; reflexivity.
Qed.

Lemma evIdentifier_sameMaps (i : Identifier) (ev ev' : EE) :
  evIdentifier i ev = Ok ev' -> sameMaps ev ev'.
Proof.
  unfold evIdentifier. intros H.
  bind_inv H. bind_inv H. injection H as <-. split; reflexivity.
Qed.

Lemma evFunctionalInstruction_sameMaps (visit : Expr -> EE -> result EE) :
  (forall e ev ev', visit e ev = Ok ev' -> sameMaps ev ev') ->
  forall i args ev ev',
    evFunctionalInstruction eval visit i args ev = Ok ev' -> sameMaps ev ev'.
Proof.
  intros Hvisit i args ev ev' H. unfold evFunctionalInstruction in H.
  bind_inv H. bind_inv H. destruct a0 as [v st]. injection H as <-.
  apply (evaluateArgs_sameMaps _ Hvisit) in Hstep.
  destruct Hstep as [H1 H2]. split; cbn; assumption.
Qed.

Lemma evFunctionCall_sameMaps (visit : Expr -> EE -> result EE)
  (interpret : Block Instruction -> Interp -> result Interp) :
  (forall e ev ev', visit e ev = Ok ev' -> sameMaps ev ev') ->
  forall f args ev ev',
    evFunctionCall visit interpret f args ev = Ok ev' -> sameMaps ev ev'.
Proof.
  intros Hvisit f args ev ev' H. unfold evFunctionCall in H.
  do 7 bind_inv H. injection H as <-.
  apply (evaluateArgs_sameMaps _ Hvisit) in Hstep0.
  destruct Hstep0 as [H1 H2]. split; cbn; assumption.
Qed.

Lemma visitExpression_sameMaps (n : nat) (e : Expr) (ev ev' : EE) :
  visitExpression eval n e ev = Ok ev' -> sameMaps ev ev'.
Proof.
  revert e ev ev'. induction n as [|n IH]; intros e ev ev' H; [discriminate|].
  destruct e as [i args|f args|i|l]; cbn in H.
  - exact (evFunctionalInstruction_sameMaps _ IH _ _ _ _ H).
  - exact (evFunctionCall_sameMaps _ _ IH _ _ _ _ H).
  - exact (evIdentifier_sameMaps _ _ _ H).
  - exact (evLiteral_sameMaps _ _ _ H).
Qed.

(** ** The environment of a call *)

Definition names (l : list TypedName) : list string := tn_name <$> l.

Lemma callArguments_eq (fn : FunctionDefinition Instruction) (vals : list u256) :
  length vals = length (fd_parameters fn) ->
  callArguments fn vals
  = Ok (foldl (fun a r => <[tn_name r := 0]> a)
          (foldl (fun a pv => <[tn_name pv.1 := pv.2]> a) ∅ (zip (fd_parameters fn) vals))
          (fd_returnVariables fn)).
Proof.
  intros Hlen. unfold callArguments.
  rewrite <- (length_zip_with_l_eq pair (fd_parameters fn) vals) by lia.
  rewrite (forRange_forEach (zip (fd_parameters fn) vals)
             (fun pv a => Ok (<[tn_name pv.1 := pv.2]> a))).
  2: { intros i [p v] a Hi. apply lookup_zip_Some in Hi as [Hp Hv]. cbn.
       rewrite (at_Some _ _ _ Hp), (at_Some _ _ _ Hv). reflexivity. }
  rewrite (forEach_pure _ (fun a pv => <[tn_name pv.1 := pv.2]> a)) by reflexivity.
  cbn.
  rewrite (forRange_forEach (fd_returnVariables fn)
             (fun r a => Ok (<[tn_name r := 0]> a))).
  2: { intros i r a Hi. cbn. rewrite (at_Some _ _ _ Hi). reflexivity. }
  apply (forEach_pure _ (fun a r => <[tn_name r := 0]> a)). reflexivity.
Qed.

Lemma zeroed_lookup (rs : list TypedName) (a : gmap string u256) (x : string) :
  foldl (fun a r => <[tn_name r := 0]> a) a rs !! x
  = if decide (x ∈ names rs) then Some 0 else a !! x.
Proof.
  revert a. induction rs as [|r rs IH] using rev_ind; intros a.
  - cbn. destruct (decide (x ∈ names [])) as [Hin|]; [|reflexivity].
    unfold names in Hin. cbn in Hin. inversion Hin.
  - rewrite foldl_snoc. unfold names. rewrite fmap_app. cbn.
    destruct (decide (tn_name r = x)) as [<-|Hne].
    + rewrite lookup_insert_eq. rewrite decide_True; [reflexivity|].
      apply elem_of_app. right. constructor.
    + rewrite lookup_insert_ne by exact Hne. rewrite IH. unfold names.
      destruct (decide (x ∈ tn_name <$> rs)) as [Hin|Hnin].
      * rewrite decide_True; [reflexivity|]. apply elem_of_app. left. exact Hin.
      * rewrite decide_False; [reflexivity|].
        intros [H|H]%elem_of_app; [contradiction|].
        apply list_elem_of_singleton in H. congruence.
Qed.

Lemma bound_lookup_None (pvs : list (TypedName * u256)) (a : gmap string u256)
  (x : string) :
  x ∉ (tn_name <$> pvs.*1) ->
  foldl (fun a pv => <[tn_name pv.1 := pv.2]> a) a pvs !! x = a !! x.
Proof.
  revert a. induction pvs as [|[p v] pvs IH]; intros a Hx; cbn; [reflexivity|].
  cbn in Hx. apply not_elem_of_cons in Hx as [Hne Hx].
  rewrite IH by exact Hx. apply lookup_insert_ne. congruence.
Qed.

Lemma bound_lookup_Some (ps : list TypedName) (vs : list u256) (a : gmap string u256)
  (i : nat) (p : TypedName) (v : u256) :
  NoDup (names ps) -> ps !! i = Some p -> vs !! i = Some v ->
  foldl (fun a pv => <[tn_name pv.1 := pv.2]> a) a (zip ps vs) !! tn_name p = Some v.
Proof.
  revert vs a i. induction ps as [|q ps IH]; intros vs a i Hnd Hp Hv; [discriminate|].
  destruct vs as [|w vs]; [rewrite lookup_nil in Hv; discriminate|].
  cbn in Hnd. apply NoDup_cons in Hnd as [Hq Hnd]. cbn.
  destruct i as [|i]; cbn in Hp, Hv.
  - injection Hp as ->. injection Hv as ->.
    rewrite bound_lookup_None; [apply lookup_insert_eq|].
    intros Hin. apply Hq. unfold names.
    apply list_elem_of_fmap in Hin as (p' & -> & Hin).
    apply list_elem_of_fmap in Hin as ([p'' v''] & -> & Hin). cbn.
    apply list_elem_of_fmap. exists p''. split; [reflexivity|].
    apply elem_of_zip_l in Hin. exact Hin.
  - exact (IH vs _ i Hnd Hp Hv).
Qed.

Lemma bound_dom (ps : list TypedName) (vs : list u256) (a : gmap string u256) :
  length vs = length ps ->
  dom (foldl (fun a pv => <[tn_name pv.1 := pv.2]> a) a (zip ps vs))
  = dom a ∪ list_to_set (names ps).
Proof.
  revert vs a. induction ps as [|p ps IH]; intros vs a Hlen.
  - cbn. set_solver.
  - destruct vs as [|v vs]; [discriminate|]. cbn in Hlen. cbn.
    rewrite IH by lia. rewrite dom_insert_L. set_solver.
Qed.

Lemma zeroed_dom (rs : list TypedName) (a : gmap string u256) :
  dom (foldl (fun a r => <[tn_name r := 0]> a) a rs) = dom a ∪ list_to_set (names rs).
Proof.
  revert a. induction rs as [|r rs IH]; intros a; cbn.
  - set_solver.
  - rewrite IH, dom_insert_L. set_solver.
Qed.

(** ** More fuel never changes a result *)

(** [more r r']: once [r] is a result of the source, [r'] is the same one. *)
Definition more {A : Type} (r r' : result A) : Prop := r <> OutOfFuel -> r' = r.

Lemma more_refl {A : Type} (r : result A) : more r r.
Proof. intros _. reflexivity. Qed.

Lemma more_trans {A : Type} (r1 r2 r3 : result A) :
  more r1 r2 -> more r2 r3 -> more r1 r3.
Proof. intros H12 H23 H. rewrite H23; rewrite (H12 H); [reflexivity | exact H]. Qed.

Lemma more_OutOfFuel {A : Type} (r : result A) : more OutOfFuel r.
Proof. intros H. contradiction. Qed.

Lemma bind_more {A B : Type} (r r' : result A) (f f' : A -> result B) :
  more r r' -> (forall a, more (f a) (f' a)) -> more (x ← r; f x) (x ← r'; f' x).
Proof.
  intros Hr Hf H. destruct r as [a| |]; cbn in *.
  - rewrite Hr by discriminate. cbn. apply Hf. exact H.
  - rewrite Hr by discriminate. reflexivity.
  - contradiction.
Qed.

Lemma forEach_more {A S : Type} (b b' : A -> S -> result S) :
  (forall x s, more (b x s) (b' x s)) ->
  forall l s, more (forEach b l s) (forEach b' l s).
Proof.
  intros Hb l. induction l as [|x l IH]; intros s; cbn; [apply more_refl|].
  apply bind_more; [apply Hb | exact IH].
Qed.

Section More.
Variables (visit visit' : Expr -> EE -> result EE).
Variables (exec exec' : Stmt -> Interp -> result Interp).
Hypothesis Hvisit : forall e ev, more (visit e ev) (visit' e ev).
Hypothesis Hexec : forall s it, more (exec s it) (exec' s it).

Lemma evaluateArgs_more (es : list Expr) (ev : EE) :
  more (evaluateArgs visit es ev) (evaluateArgs visit' es ev).
Proof.
  unfold evaluateArgs. apply bind_more; [|intros; apply more_refl].
  apply forEach_more. intros e [vs ev0].
  apply bind_more; [apply Hvisit | intros; apply more_refl].
Qed.

Lemma evFunctionalInstruction_more (i : Instruction) (es : list Expr) (ev : EE) :
  more (evFunctionalInstruction eval visit i es ev)
       (evFunctionalInstruction eval visit' i es ev).
Proof.
  unfold evFunctionalInstruction.
  apply bind_more; [apply evaluateArgs_more | intros; apply more_refl].
Qed.

Lemma evaluate_more (e : Expr) (it : Interp) :
  more (evaluate visit e it) (evaluate visit' e it).
Proof.
  unfold evaluate. apply bind_more; [apply Hvisit | intros; apply more_refl].
Qed.

Lemma evaluateMulti_more (e : Expr) (it : Interp) :
  more (evaluateMulti visit e it) (evaluateMulti visit' e it).
Proof.
  unfold evaluateMulti. apply bind_more; [apply Hvisit | intros; apply more_refl].
Qed.

Lemma opExpressionStatement_more (e : Expr) (it : Interp) :
  more (opExpressionStatement visit e it) (opExpressionStatement visit' e it).
Proof.
  unfold opExpressionStatement.
  apply bind_more; [apply evaluateMulti_more | intros; apply more_refl].
Qed.

Lemma opAssignment_more (xs : list Identifier) (val : option Expr) (it : Interp) :
  more (opAssignment visit xs val it) (opAssignment visit' xs val it).
Proof.
  unfold opAssignment. destruct val as [e|]; [|apply more_refl].
  apply bind_more; [apply evaluateMulti_more | intros; apply more_refl].
Qed.

Lemma opVariableDeclaration_more (xs : list TypedName) (val : option Expr) (it : Interp) :
  more (opVariableDeclaration visit xs val it) (opVariableDeclaration visit' xs val it).
Proof.
  unfold opVariableDeclaration.
  apply bind_more; [|intros; apply more_refl].
  destruct val as [e|]; [apply evaluateMulti_more | apply more_refl].
Qed.

Lemma opBlock_more (b : Block Instruction) (it : Interp) :
  more (opBlock exec b it) (opBlock exec' b it).
Proof.
  unfold opBlock. apply bind_more; [|intros; apply more_refl].
  apply forEach_more. exact Hexec.
Qed.

Lemma evFunctionCall_more (f : Identifier) (es : list Expr) (ev : EE) :
  more (evFunctionCall visit (opBlock exec) f es ev)
       (evFunctionCall visit' (opBlock exec') f es ev).
Proof.
  unfold evFunctionCall.
  apply bind_more; [apply more_refl | intros _].
  apply bind_more; [apply evaluateArgs_more | intros ev1].
  apply bind_more; [apply more_refl | intros fn].
  apply bind_more; [apply more_refl | intros _].
  apply bind_more; [apply more_refl | intros args].
  apply bind_more; [apply opBlock_more | intros; apply more_refl].
Qed.

Lemma opIf_more (c : option Expr) (body : Block Instruction) (it : Interp) :
  more (opIf visit exec c body it) (opIf visit' exec' c body it).
Proof.
  unfold opIf. destruct c as [c|]; [|apply more_refl].
  apply bind_more; [apply evaluate_more | intros [v it1]].
  destruct (v =? 0); [apply more_refl | apply opBlock_more].
Qed.

Lemma switchCases_more (val : u256) (cases : list (Case Instruction)) (it : Interp) :
  more (switchCases visit exec val cases it) (switchCases visit' exec' val cases it).
Proof.
  revert it. induction cases as [|[[g|] body] rest IH]; intros it; cbn.
  - apply more_refl.
  - apply bind_more; [apply evaluate_more | intros [v it1]].
    destruct (v =? val); [apply opBlock_more | apply IH].
  - apply opBlock_more.
Qed.

Lemma opSwitch_more (e : option Expr) (cases : list (Case Instruction)) (it : Interp) :
  more (opSwitch visit exec e cases it) (opSwitch visit' exec' e cases it).
Proof.
  unfold opSwitch. destruct e as [e|]; [|apply more_refl].
  apply bind_more; [apply evaluate_more | intros [v it1]; apply switchCases_more].
Qed.

Lemma whileLoop_more (k k' : nat)
  (cond cond' : Interp -> result (u256 * Interp)) (step step' : Interp -> result Interp) :
  (k <= k')%nat ->
  (forall it, more (cond it) (cond' it)) -> (forall it, more (step it) (step' it)) ->
  forall it, more (whileLoop k cond step it) (whileLoop k' cond' step' it).
Proof.
  intros Hk Hcond Hstep. revert k' Hk.
  induction k as [|k IH]; intros k' Hk it; [apply more_OutOfFuel|].
  destruct k' as [|k']; [lia|]. cbn.
  apply bind_more; [apply Hcond | intros [c it1]].
  destruct (c =? 0); [apply more_refl|].
  apply bind_more; [apply Hstep | intros it2; apply IH; lia].
Qed.

Lemma opForLoop_more (k k' : nat) (pre : Block Instruction) (c : option Expr)
  (post body : Block Instruction) (it : Interp) :
  (k <= k')%nat ->
  more (opForLoop k visit exec pre c post body it)
       (opForLoop k' visit' exec' pre c post body it).
Proof.
  intros Hk. unfold opForLoop. destruct c as [c|]; [|apply more_refl].
  apply bind_more; [apply forEach_more; exact Hexec | intros it1].
  apply bind_more; [|intros; apply more_refl].
  apply whileLoop_more; [exact Hk | apply evaluate_more |].
  intros it0. apply bind_more; [apply opBlock_more | intros; apply opBlock_more].
Qed.

End More.

Lemma visit_more_step (n : nat) :
  (forall e ev, more (visitExpression eval n e ev) (visitExpression eval (S n) e ev)) /\
  (forall s it, more (visitStatement eval n s it) (visitStatement eval (S n) s it)).
Proof.
  induction n as [|n [IHe IHs]].
  - split; intros; apply more_OutOfFuel.
  - split.
    + intros [i args|f args|i|l] ev.
      * apply (evFunctionalInstruction_more _ _ IHe).
      * apply (evFunctionCall_more _ _ _ _ IHe IHs).
      * apply more_refl.
      * apply more_refl.
    + intros [e|xs val|xs val|fd|c body|e cases|pre c post body|b] it.
      * apply (opExpressionStatement_more _ _ IHe).
      * apply (opAssignment_more _ _ IHe).
      * apply (opVariableDeclaration_more _ _ IHe).
      * apply more_refl.
      * apply (opIf_more _ _ _ _ IHe IHs).
      * apply (opSwitch_more _ _ _ _ IHe IHs).
      * apply (opForLoop_more _ _ _ _ IHe IHs). lia.
      * apply (opBlock_more _ _ IHs).
Qed.

Lemma visitExpression_more (n m : nat) (e : Expr) (ev : EE) :
  (n <= m)%nat -> more (visitExpression eval n e ev) (visitExpression eval m e ev).
Proof.
  induction 1 as [|m Hle IH]; [apply more_refl|].
  eapply more_trans; [exact IH | apply visit_more_step].
Qed.

Lemma visitStatement_more (n m : nat) (s : Stmt) (it : Interp) :
  (n <= m)%nat -> more (visitStatement eval n s it) (visitStatement eval m s it).
Proof.
  induction 1 as [|m Hle IH]; [apply more_refl|].
  eapply more_trans; [exact IH | apply visit_more_step].
Qed.

(** ** Nothing is ever put into a scope frame

    No statement inserts a name into [m_scopes.back()], so every frame an
    interpreter built by the constructor ever holds is empty, [closeScope]
    finds nothing to erase, and the maps only grow. *)

Definition framesEmpty (it : Interp) : Prop :=
  Forall (fun frame => frame = ∅) (m_scopes it).

Definition grows (it it' : Interp) : Prop :=
  dom (m_variables it) ⊆ dom (m_variables it') /\
  dom (m_functions it) ⊆ dom (m_functions it') /\
  (length (m_scopes it) <= length (m_scopes it'))%nat /\
  framesEmpty it'.

Definition stable (it it' : Interp) : Prop := framesEmpty it -> grows it it'.

Lemma stable_refl (it : Interp) : stable it it.
Proof. intros H. repeat split; [reflexivity | reflexivity | lia | exact H]. Qed.

Lemma stable_trans (a b c : Interp) : stable a b -> stable b c -> stable a c.
Proof.
  intros Hab Hbc Ha. destruct (Hab Ha) as (H1 & H2 & H3 & H4).
  destruct (Hbc H4) as (H5 & H6 & H7 & H8).
  repeat split; [set_solver | set_solver | lia | exact H8].
Qed.

Lemma forEach_stable {A : Type} (body : A -> Interp -> result Interp) :
  (forall x it it', body x it = Ok it' -> stable it it') ->
  forall l it it', forEach body l it = Ok it' -> stable it it'.
Proof.
  intros Hbody l. induction l as [|x l IH]; intros it it' H; cbn in H.
  - injection H as <-. apply stable_refl.
  - bind_inv H. eapply stable_trans; [eapply Hbody | eapply IH]; eassumption.
Qed.

Lemma forRange_stable (body : nat -> Interp -> result Interp) :
  (forall i it it', body i it = Ok it' -> stable it it') ->
  forall cnt start it it', forRange start cnt body it = Ok it' -> stable it it'.
Proof.
  intros Hbody cnt. induction cnt as [|cnt IH]; intros start it it' H; cbn in H.
  - injection H as <-. apply stable_refl.
  - bind_inv H. eapply stable_trans; [eapply Hbody | eapply IH]; eassumption.
Qed.

Lemma withState_stable (st : InterpreterState) (it : Interp) : stable it (withState st it).
Proof. intros H. repeat split; cbn; [reflexivity | reflexivity | lia | exact H]. Qed.

Lemma insert_variable_stable (x : string) (v : u256) (it : Interp) :
  stable it (withVariables (<[x := v]> (m_variables it)) it).
Proof.
  intros H. repeat split; cbn; [|reflexivity|lia|exact H].
  rewrite dom_insert_L. set_solver.
Qed.

Lemma closeScope_empty_frame (it : Interp) :
  framesEmpty it -> m_scopes it <> [] -> closeScope it = Ok it.
Proof.
  intros Hinv Hne. unfold closeScope.
  destruct (last (m_scopes it)) as [frame|] eqn:Hlast.
  - apply last_Some in Hlast as [l' Hl'].
    unfold framesEmpty in Hinv. rewrite Hl' in Hinv.
    apply Forall_app in Hinv as [_ Hinv]. apply Forall_inv in Hinv.
    assert (Hframe : frame = ∅) by exact Hinv.
    rewrite Hframe, elements_empty. reflexivity.
  - apply last_None in Hlast. contradiction.
Qed.

Lemma evaluate_inv (visit : Expr -> EE -> result EE) (e : Expr) (it it' : Interp)
  (v : u256) :
  evaluate visit e it = Ok (v, it') -> exists st, it' = withState st it.
Proof.
  unfold evaluate. intros H. bind_inv H. bind_inv H. injection H as _ <-.
  eexists. reflexivity.
Qed.

Lemma evaluateMulti_inv (visit : Expr -> EE -> result EE) (e : Expr) (it it' : Interp)
  (vs : list u256) :
  evaluateMulti visit e it = Ok (vs, it') -> exists st, it' = withState st it.
Proof.
  unfold evaluateMulti. intros H. bind_inv H. injection H as _ <-.
  eexists. reflexivity.
Qed.

Section Stable.
Variable visit : Expr -> EE -> result EE.
Variable exec : Stmt -> Interp -> result Interp.
Hypothesis Hexec : forall s it it', exec s it = Ok it' -> stable it it'.

Lemma evaluate_stable (e : Expr) (it it' : Interp) (v : u256) :
  evaluate visit e it = Ok (v, it') -> stable it it'.
Proof. intros [st ->]%evaluate_inv. apply withState_stable. Qed.

Lemma opExpressionStatement_stable (e : Expr) (it it' : Interp) :
  opExpressionStatement visit e it = Ok it' -> stable it it'.
Proof.
  unfold opExpressionStatement. intros H. bind_inv H. destruct a as [vs it1].
  injection H as <-. apply evaluateMulti_inv in Hstep as [st ->].
  apply withState_stable.
Qed.

Lemma opAssignment_stable (xs : list Identifier) (val : option Expr) (it it' : Interp) :
  opAssignment visit xs val it = Ok it' -> stable it it'.
Proof.
  unfold opAssignment. intros H. destruct val as [e|]; [|discriminate].
  bind_inv H. destruct a as [vs it1]. bind_inv H.
  apply evaluateMulti_inv in Hstep as [st ->].
  eapply stable_trans; [apply withState_stable|].
  eapply forRange_stable; [|exact H].
  intros i it0 it0' Hb. do 3 bind_inv Hb. injection Hb as <-.
  apply insert_variable_stable.
Qed.

Lemma opVariableDeclaration_stable (xs : list TypedName) (val : option Expr)
  (it it' : Interp) :
  opVariableDeclaration visit xs val it = Ok it' -> stable it it'.
Proof.
  unfold opVariableDeclaration. intros H.
  bind_inv H. destruct a as [vs it1]. bind_inv H.
  assert (Hit1 : stable it it1).
  { destruct val as [e|].
    - apply evaluateMulti_inv in Hstep as [st ->]. apply withState_stable.
    - injection Hstep as _ <-. apply stable_refl. }
  eapply stable_trans; [exact Hit1|].
  eapply forRange_stable; [|exact H].
  intros i it0 it0' Hb. do 3 bind_inv Hb. injection Hb as <-.
  apply insert_variable_stable.
Qed.

Lemma register_stable (l : list Stmt) (it : Interp) :
  stable it
    (fold_left
       (fun it s =>
          match s with
          | SFunctionDefinition funDef =>
              withFunctions (<[fd_name funDef := funDef]> (m_functions it)) it
          | _ => it
          end) l it).
Proof.
  revert it. induction l as [|s l IH]; intros it; cbn; [apply stable_refl|].
  eapply stable_trans; [|apply IH].
  destruct s; try apply stable_refl.
  intros H. repeat split; cbn; [reflexivity| |lia|exact H].
  rewrite dom_insert_L. set_solver.
Qed.

Lemma opBlock_stable (b : Block Instruction) (it it' : Interp) :
  opBlock exec b it = Ok it' -> stable it it'.
Proof.
  unfold opBlock. intros H. bind_inv H. intros Hinv.
  assert (H0 : grows it (openScope it)).
  { repeat split; cbn; [reflexivity | reflexivity | rewrite length_app; lia |].
    apply Forall_app. split; [exact Hinv | apply Forall_singleton; reflexivity]. }
  assert (H1 : stable (openScope it) a).
  { eapply stable_trans; [apply register_stable|].
    eapply forEach_stable; [exact Hexec | exact Hstep]. }
  destruct (H1 ltac:(apply H0)) as (_ & _ & Hlen & Ha).
  rewrite closeScope_empty_frame in H.
  - injection H as <-.
    exact (stable_trans it (openScope it) a (fun _ => H0) H1 Hinv).
  - exact Ha.
  - cbn in Hlen. rewrite length_app in Hlen. cbn in Hlen.
    intros Hnil. rewrite Hnil in Hlen. cbn in Hlen. lia.
Qed.

Lemma opIf_stable (c : option Expr) (body : Block Instruction) (it it' : Interp) :
  opIf visit exec c body it = Ok it' -> stable it it'.
Proof.
  unfold opIf. intros H. destruct c as [c|]; [|discriminate].
  bind_inv H. destruct a as [v it1]. apply evaluate_stable in Hstep.
  eapply stable_trans; [exact Hstep|].
  destruct (v =? 0); [injection H as <-; apply stable_refl | exact (opBlock_stable _ _ _ H)].
Qed.

Lemma switchCases_stable (val : u256) (cases : list (Case Instruction))
  (it it' : Interp) :
  switchCases visit exec val cases it = Ok it' -> stable it it'.
Proof.
  revert it. induction cases as [|[[g|] body] rest IH]; intros it H; cbn in H.
  - injection H as <-. apply stable_refl.
  - bind_inv H. destruct a as [v it1]. apply evaluate_stable in Hstep.
    eapply stable_trans; [exact Hstep|].
    destruct (v =? val); [exact (opBlock_stable _ _ _ H) | exact (IH _ H)].
  - exact (opBlock_stable _ _ _ H).
Qed.

Lemma opSwitch_stable (e : option Expr) (cases : list (Case Instruction))
  (it it' : Interp) :
  opSwitch visit exec e cases it = Ok it' -> stable it it'.
Proof.
  unfold opSwitch. intros H. destruct e as [e|]; [|discriminate].
  bind_inv H. destruct a as [v it1]. apply evaluate_stable in Hstep.
  eapply stable_trans; [exact Hstep | exact (switchCases_stable _ _ _ _ H)].
Qed.

Lemma whileLoop_stable (k : nat) (cond : Interp -> result (u256 * Interp))
  (step : Interp -> result Interp) :
  (forall it v it', cond it = Ok (v, it') -> stable it it') ->
  (forall it it', step it = Ok it' -> stable it it') ->
  forall it it', whileLoop k cond step it = Ok it' -> stable it it'.
Proof.
  intros Hcond Hstep. induction k as [|k IH]; intros it it' H; [discriminate|].
  cbn in H. bind_inv H. destruct a as [c it1]. apply Hcond in Hstep0.
  eapply stable_trans; [exact Hstep0|].
  destruct (c =? 0); [injection H as <-; apply stable_refl|].
  bind_inv H. eapply stable_trans; [eapply Hstep | eapply IH]; eassumption.
Qed.

Lemma opForLoop_stable (k : nat) (pre : Block Instruction) (c : option Expr)
  (post body : Block Instruction) (it it' : Interp) :
  opForLoop k visit exec pre c post body it = Ok it' -> stable it it'.
Proof.
  unfold opForLoop. intros H. destruct c as [c|]; [|discriminate].
  bind_inv H. bind_inv H. intros Hinv.
  assert (H0 : grows it (openScope it)).
  { repeat split; cbn; [reflexivity | reflexivity | rewrite length_app; lia |].
    apply Forall_app. split; [exact Hinv | apply Forall_singleton; reflexivity]. }
  assert (H1 : stable (openScope it) a0).
  { eapply stable_trans; [eapply forEach_stable; [exact Hexec | exact Hstep]|].
    eapply whileLoop_stable; [| |exact Hstep0].
    - intros ? ? ?. apply evaluate_stable.
    - intros it0 it0' Hb. bind_inv Hb.
      eapply stable_trans; eapply opBlock_stable; eassumption. }
  destruct (H1 ltac:(apply H0)) as (_ & _ & Hlen & Ha).
  rewrite closeScope_empty_frame in H.
  - injection H as <-.
    exact (stable_trans it (openScope it) a0 (fun _ => H0) H1 Hinv).
  - exact Ha.
  - cbn in Hlen. rewrite length_app in Hlen. cbn in Hlen.
    intros Hnil. rewrite Hnil in Hlen. cbn in Hlen. lia.
Qed.

End Stable.

Lemma visitStatement_stable (n : nat) (s : Stmt) (it it' : Interp) :
  visitStatement eval n s it = Ok it' -> stable it it'.
Proof.
  revert s it it'. induction n as [|n IH]; intros s it it' H; [discriminate|].
  destruct s as [e|xs val|xs val|fd|c body|e cases|pre c post body|b]; cbn in H.
  - exact (opExpressionStatement_stable _ _ _ _ H).
  - exact (opAssignment_stable _ _ _ _ _ H).
  - exact (opVariableDeclaration_stable _ _ _ _ _ H).
  - injection H as <-. apply stable_refl.
  - exact (opIf_stable _ _ IH _ _ _ _ H).
  - exact (opSwitch_stable _ _ IH _ _ _ _ H).
  - exact (opForLoop_stable _ _ IH _ _ _ _ _ _ _ H).
  - exact (opBlock_stable _ IH _ _ _ H).
Qed.

(** ** The loops of declaration and assignment *)

Definition declareOne (pv : TypedName * u256) (it : Interp) : result Interp :=
  _ ← solAssert (count (m_variables it) (tn_name pv.1) =? 0)%nat;
  Ok (withVariables (<[tn_name pv.1 := pv.2]> (m_variables it)) it).

Definition assignOne (pv : Identifier * u256) (it : Interp) : result Interp :=
  _ ← solAssert (negb (count (m_variables it) (id_name pv.1) =? 0)%nat);
  Ok (withVariables (<[id_name pv.1 := pv.2]> (m_variables it)) it).

Lemma count_zero {V : Type} (m : gmap string V) (k : string) :
  (count m k =? 0)%nat = true <-> m !! k = None.
Proof. unfold count. destruct (m !! k); cbn; split; congruence. Qed.

Lemma declare_loop (vars : list TypedName) (vals : list u256) (it : Interp) :
  length vals = length vars ->
  forRange 0 (length vals)
    (fun i it =>
       x ← at_ vars i;
       _ ← solAssert (count (m_variables it) (tn_name x) =? 0)%nat;
       v ← at_ vals i;
       Ok (withVariables (<[tn_name x := v]> (m_variables it)) it)) it
  = forEach declareOne (zip vars vals) it.
Proof.
  intros Hlen. rewrite <- (length_zip_with_r_eq pair vars vals) by lia.
  apply forRange_forEach. intros i [p v] it0 Hi.
  apply lookup_zip_Some in Hi as [Hp Hv]. cbn.
  rewrite (at_Some _ _ _ Hp), (at_Some _ _ _ Hv). reflexivity.
Qed.

Lemma assign_loop (xs : list Identifier) (vals : list u256) (it : Interp) :
  length vals = length xs ->
  forRange 0 (length vals)
    (fun i it =>
       x ← at_ xs i;
       _ ← solAssert (negb (count (m_variables it) (id_name x) =? 0)%nat);
       v ← at_ vals i;
       Ok (withVariables (<[id_name x := v]> (m_variables it)) it)) it
  = forEach assignOne (zip xs vals) it.
Proof.
  intros Hlen. rewrite <- (length_zip_with_r_eq pair xs vals) by lia.
  apply forRange_forEach. intros i [p v] it0 Hi.
  apply lookup_zip_Some in Hi as [Hp Hv]. cbn.
  rewrite (at_Some _ _ _ Hp), (at_Some _ _ _ Hv). reflexivity.
Qed.

Lemma opVariableDeclaration_None (visit : Expr -> EE -> result EE)
  (vars : list TypedName) (it : Interp) :
  opVariableDeclaration visit vars None it
  = forEach declareOne (zip vars (replicate (length vars) 0)) it.
Proof.
  rewrite <- declare_loop by apply length_replicate.
  unfold opVariableDeclaration. cbn.
  rewrite length_replicate, Nat.eqb_refl. reflexivity.
Qed.

Lemma opVariableDeclaration_Some (visit : Expr -> EE -> result EE)
  (vars : list TypedName) (e : Expr) (it it1 : Interp) (vals : list u256) :
  evaluateMulti visit e it = Ok (vals, it1) ->
  opVariableDeclaration visit vars (Some e) it
  = if (length vals =? length vars)%nat
    then forEach declareOne (zip vars vals) it1 else Fatal.
Proof.
  intros He. unfold opVariableDeclaration. rewrite He. cbn.
  destruct (length vals =? length vars)%nat eqn:Hlen; [|reflexivity].
  apply Nat.eqb_eq in Hlen. cbn. apply declare_loop. exact Hlen.
Qed.

Lemma opAssignment_Some (visit : Expr -> EE -> result EE)
  (xs : list Identifier) (e : Expr) (it it1 : Interp) (vals : list u256) :
  evaluateMulti visit e it = Ok (vals, it1) ->
  opAssignment visit xs (Some e) it
  = if (length vals =? length xs)%nat
    then forEach assignOne (zip xs vals) it1 else Fatal.
Proof.
  intros He. unfold opAssignment. rewrite He. cbn.
  destruct (length vals =? length xs)%nat eqn:Hlen; [|reflexivity].
  apply Nat.eqb_eq in Hlen. cbn. apply assign_loop. exact Hlen.
Qed.

Lemma forEach_not_OutOfFuel {A S : Type} (body : A -> S -> result S) :
  (forall x s, body x s <> OutOfFuel) ->
  forall l s, forEach body l s <> OutOfFuel.
Proof.
  intros Hbody l. induction l as [|x l IH]; intros s; cbn; [discriminate|].
  destruct (body x s) as [s1| |] eqn:Hb; cbn;
    [apply IH | discriminate | destruct (Hbody _ _ Hb)].
Qed.

Lemma declareOne_not_OutOfFuel (pv : TypedName * u256) (it : Interp) :
  declareOne pv it <> OutOfFuel.
Proof. unfold declareOne. destruct (count _ _ =? 0)%nat; cbn; discriminate. Qed.

Lemma assignOne_not_OutOfFuel (pv : Identifier * u256) (it : Interp) :
  assignOne pv it <> OutOfFuel.
Proof. unfold assignOne. destruct (count _ _ =? 0)%nat; cbn; discriminate. Qed.

(** A successful declaration loop met only fresh, pairwise different
    names, and binds each to its value. *)
Lemma declare_loop_Ok (pvs : list (TypedName * u256)) (it it' : Interp) :
  forEach declareOne pvs it = Ok it' ->
  (forall p v, (p, v) ∈ pvs -> m_variables it' !! tn_name p = Some v) /\
  (forall y, y ∉ names pvs.*1 -> m_variables it' !! y = m_variables it !! y) /\
  (forall p, p ∈ pvs.*1 -> m_variables it !! tn_name p = None) /\
  m_state it' = m_state it /\ m_functions it' = m_functions it /\
  m_scopes it' = m_scopes it.
Proof.
  revert it. induction pvs as [|[p v] pvs IH]; intros it H; cbn in H.
  - injection H as <-. repeat split; try reflexivity.
    + intros p v Hin. inversion Hin.
    + intros p Hin. inversion Hin.
  - bind_inv H. unfold declareOne in Hstep. bind_inv Hstep.
    apply solAssert_Ok_inv, count_zero in Hstep0. cbn in Hstep0.
    injection Hstep as <-.
    destruct (IH _ H) as (Hin & Hout & Hfresh & Hst & Hfn & Hsc). cbn in *.
    assert (Hp : tn_name p ∉ names pvs.*1).
    { intros Hp. apply list_elem_of_fmap in Hp as (q & Hq & Hqin).
      specialize (Hfresh q Hqin). rewrite <- Hq, lookup_insert_eq in Hfresh.
      discriminate. }
    repeat split; try assumption.
    + intros q w [Heq|Hq]%elem_of_cons.
      * injection Heq as -> ->. rewrite (Hout _ Hp). apply lookup_insert_eq.
      * exact (Hin _ _ Hq).
    + intros y Hy. apply not_elem_of_cons in Hy as [Hne Hy].
      rewrite (Hout _ Hy). apply lookup_insert_ne. congruence.
    + intros q [->|Hq]%elem_of_cons; [exact Hstep0|].
      specialize (Hfresh q Hq).
      destruct (decide (tn_name p = tn_name q)) as [Heq|Hne].
      * rewrite Heq, lookup_insert_eq in Hfresh. discriminate.
      * rewrite lookup_insert_ne in Hfresh by exact Hne. exact Hfresh.
Qed.

Lemma declare_loop_total (pvs : list (TypedName * u256)) (it : Interp) :
  NoDup (names pvs.*1) ->
  (forall p, p ∈ pvs.*1 -> m_variables it !! tn_name p = None) ->
  exists it', forEach declareOne pvs it = Ok it'.
Proof.
  revert it. induction pvs as [|[p v] pvs IH]; intros it Hnd Hfresh; cbn.
  - eexists. reflexivity.
  - cbn in Hnd. apply NoDup_cons in Hnd as [Hp Hnd].
    assert (Hone : declareOne (p, v) it
                   = Ok (withVariables (<[tn_name p := v]> (m_variables it)) it)).
    { unfold declareOne. cbn.
      replace (count (m_variables it) (tn_name p) =? 0)%nat with true; [reflexivity|].
      symmetry. apply count_zero. apply Hfresh. constructor. }
    rewrite Hone. cbn. apply IH; [exact Hnd|].
    intros q Hq. cbn. rewrite lookup_insert_ne.
    + apply Hfresh. apply elem_of_cons. right. exact Hq.
    + intros Heq. apply Hp. rewrite Heq. apply list_elem_of_fmap.
      exists q. split; [reflexivity | exact Hq].
Qed.

(** A successful assignment loop met only bound names. *)
Lemma assign_loop_Ok (pvs : list (Identifier * u256)) (it it' : Interp) :
  forEach assignOne pvs it = Ok it' ->
  dom (m_variables it') = dom (m_variables it) /\
  (forall p, p ∈ pvs.*1 -> is_Some (m_variables it !! id_name p)).
Proof.
  revert it. induction pvs as [|[p v] pvs IH]; intros it H; cbn in H.
  - injection H as <-. split; [reflexivity|]. intros p Hin. inversion Hin.
  - bind_inv H. unfold assignOne in Hstep. bind_inv Hstep.
    apply solAssert_Ok_inv, negb_true_iff in Hstep0. cbn in Hstep0.
    assert (Hp : is_Some (m_variables it !! id_name p)).
    { destruct (m_variables it !! id_name p) eqn:Hl; [eexists; reflexivity|].
      apply count_zero in Hl. congruence. }
    injection Hstep as <-. destruct (IH _ H) as [Hdom Hbound]. cbn in *.
    assert (Hd : dom (<[id_name p := v]> (m_variables it)) = dom (m_variables it)).
    { rewrite dom_insert_L. apply elem_of_dom in Hp. set_solver. }
    split; [congruence|].
    intros q [->|Hq]%elem_of_cons; [exact Hp|].
    apply elem_of_dom. rewrite <- Hd. apply elem_of_dom. exact (Hbound q Hq).
Qed.

Lemma declare_bound_Fatal (pvs : list (TypedName * u256)) (it : Interp) (x : string) :
  x ∈ names pvs.*1 -> is_Some (m_variables it !! x) ->
  forEach declareOne pvs it = Fatal.
Proof.
  intros Hx [v Hv].
  destruct (forEach declareOne pvs it) as [it'| |] eqn:H; [|reflexivity|].
  - apply declare_loop_Ok in H as (_ & _ & Hfresh & _).
    apply list_elem_of_fmap in Hx as (p & -> & Hp).
    rewrite (Hfresh p Hp) in Hv. discriminate.
  - destruct (forEach_not_OutOfFuel _ declareOne_not_OutOfFuel _ _ H).
Qed.

Lemma assign_unbound_Fatal (pvs : list (Identifier * u256)) (it : Interp) (x : string) :
  x ∈ id_name <$> pvs.*1 -> m_variables it !! x = None ->
  forEach assignOne pvs it = Fatal.
Proof.
  intros Hx Hv.
  destruct (forEach assignOne pvs it) as [it'| |] eqn:H; [|reflexivity|].
  - apply assign_loop_Ok in H as [_ Hbound].
    apply list_elem_of_fmap in Hx as (p & -> & Hp).
    destruct (Hbound p Hp) as [v Hv']. rewrite Hv in Hv'. discriminate.
  - destruct (forEach_not_OutOfFuel _ assignOne_not_OutOfFuel _ _ H).
Qed.

(** ** Big-endian bytes *)

Definition isByte (b : Z) : Prop := 0 <= b < 256.

Lemma fromBigEndian_snoc (bs : list Z) (b : Z) :
  fromBigEndian (bs ++ [b]) = fromBigEndian bs * 256 + b.
Proof. unfold fromBigEndian. rewrite fold_left_app. reflexivity. Qed.

Lemma fromBigEndian_bound (bs : list Z) :
  Forall isByte bs -> 0 <= fromBigEndian bs < 256 ^ Z.of_nat (length bs).
Proof.
  induction bs as [|b bs IH] using rev_ind; intros Hall.
  - cbn. lia.
  - apply Forall_app in Hall as [Hbs Hb]. apply Forall_inv in Hb.
    specialize (IH Hbs). rewrite fromBigEndian_snoc, length_app. cbn [length].
    replace (Z.of_nat (length bs + 1)) with (Z.of_nat (length bs) + 1) by lia.
    rewrite Z.pow_add_r by lia. unfold isByte in Hb. lia.
Qed.

Lemma toBigEndian_fromBigEndian (bs : list Z) :
  Forall isByte bs -> toBigEndian (length bs) (fromBigEndian bs) = bs.
Proof.
  induction bs as [|b bs IH] using rev_ind; intros Hall; [reflexivity|].
  apply Forall_app in Hall as [Hbs Hb]. apply Forall_inv in Hb. unfold isByte in Hb.
  rewrite fromBigEndian_snoc, length_app. cbn [length].
  rewrite Nat.add_1_r. cbn [toBigEndian].
  replace ((fromBigEndian bs * 256 + b) / 256) with (fromBigEndian bs).
  2: { rewrite Z.div_add_l by lia. rewrite (Z.div_small b 256) by lia. lia. }
  replace ((fromBigEndian bs * 256 + b) mod 256) with b.
  2: { rewrite Z.add_comm, Z.mod_add by lia. symmetry. apply Z.mod_small. lia. }
  rewrite (IH Hbs). reflexivity.
Qed.

Lemma asBytes_isByte (s : string) : Forall isByte (asBytes s).
Proof.
  induction s as [|c s IH]; cbn; constructor; [|exact IH].
  unfold isByte, byteOf. pose proof (N_ascii_bounded c). lia.
Qed.

Lemma length_asBytes (s : string) : length (asBytes s) = String.length s.
Proof. induction s as [|c s IH]; cbn; [reflexivity | rewrite IH; reflexivity]. Qed.

Lemma h256_alignLeft_short (b : list Z) :
  (length b <= 32)%nat -> h256_alignLeft b = b ++ replicate (32 - length b) 0.
Proof. intros H. unfold h256_alignLeft. rewrite take_ge by lia. reflexivity. Qed.

(** ** Switch and loop *)

Lemma switchCases_miss (visitE : Expr -> EE -> result EE)
  (visit : Stmt -> Interp -> result Interp) (val : u256)
  (pre rest : list (Case Instruction)) (it it2 : Interp) :
  GuardsMiss visitE val pre it it2 ->
  switchCases visitE visit val (pre ++ rest) it = switchCases visitE visit val rest it2.
Proof.
  induction 1 as [it|g body pre it v it1 it2 Hg Hne _ IH]; [reflexivity|].
  cbn. rewrite Hg. cbn.
  destruct (v =? val) eqn:Heq; [apply Z.eqb_eq in Heq; contradiction | exact IH].
Qed.

Lemma opSwitch_Some (visitE : Expr -> EE -> result EE)
  (visit : Stmt -> Interp -> result Interp) (e : Expr)
  (cases : list (Case Instruction)) (it it1 : Interp) (val : u256) :
  evaluate visitE e it = Ok (val, it1) ->
  opSwitch visitE visit (Some e) cases it = switchCases visitE visit val cases it1.
Proof. intros He. unfold opSwitch. rewrite He. reflexivity. Qed.

Lemma whileLoop_Iterations (N : nat) (cond : Interp -> result (u256 * Interp))
  (body post : Interp -> result Interp) (it it' : Interp) :
  whileLoop N cond (fun it => it' ← body it; post it') it = Ok it' <->
  exists k, (k < N)%nat /\ Iterations cond body post k it it'.
Proof.
  split.
  - revert it. induction N as [|N IH]; intros it H; [discriminate|].
    cbn in H. bind_inv H. destruct a as [c it1].
    destruct (c =? 0) eqn:Hc.
    + apply Z.eqb_eq in Hc. subst c. injection H as <-.
      exists 0%nat. split; [lia | constructor; exact Hstep].
    + apply Z.eqb_neq in Hc. bind_inv H. bind_inv Hstep0.
      destruct (IH _ H) as (k & Hk & Hiter).
      exists (S k). split; [lia | econstructor; eassumption].
  - intros (k & Hk & Hiter). revert N Hk.
    induction Hiter as [it it1 Hc|k it c it1 it2 it3 it4 Hc Hne Hb Hp _ IH];
      intros N Hk; (destruct N as [|N]; [lia|]); cbn; rewrite Hc; cbn.
    + reflexivity.
    + destruct (c =? 0) eqn:Heq; [apply Z.eqb_eq in Heq; contradiction|].
      rewrite Hb. cbn. rewrite Hp. cbn. apply IH. lia.
Qed.

Lemma Iterations_unique (cond : Interp -> result (u256 * Interp))
  (body post : Interp -> result Interp) (k k' : nat) (it a b : Interp) :
  Iterations cond body post k it a -> Iterations cond body post k' it b ->
  k = k' /\ a = b.
Proof.
  intros H. revert k' b.
  induction H as [it it1 Hc|k it c it1 it2 it3 it4 Hc Hne Hb Hp _ IH];
    intros k' b H'; inversion H'; subst;
    repeat match goal with
    | H1 : ?t = Ok _, H2 : ?t = Ok _ |- _ =>
        rewrite H1 in H2; injection H2 as ?; subst
    end.
  - split; reflexivity.
  - contradiction.
  - contradiction.
  - match goal with Hrest : Iterations _ _ _ _ _ _ |- _ =>
      destruct (IH _ _ Hrest) as [-> ->] end.
    split; reflexivity.
Qed.

Lemma readback_loop (it : Interp) (rets : list TypedName) (acc : list u256) :
  (forall r, r ∈ rets -> is_Some (m_variables it !! tn_name r)) ->
  exists vals,
    forEach (fun retVar vs => v ← valueOfVariable it (tn_name retVar); Ok (vs ++ [v]))
      rets acc = Ok (acc ++ vals) /\
    Forall2 (fun r v => m_variables it !! tn_name r = Some v) rets vals.
Proof.
  revert acc. induction rets as [|r rets IH]; intros acc Hbound; cbn.
  - exists []. rewrite app_nil_r. split; [reflexivity | constructor].
  - destruct (Hbound r ltac:(constructor)) as [v Hv].
    unfold valueOfVariable, mapAt. rewrite Hv. cbn.
    destruct (IH (acc ++ [v])) as (vals & Hrun & Hall).
    { intros r' Hr'. apply Hbound. apply elem_of_cons. right. exact Hr'. }
    exists (v :: vals). split.
    + unfold valueOfVariable, mapAt in Hrun. rewrite Hrun, <- app_assoc. reflexivity.
    + constructor; assumption.
Qed.

End Facts.

(** * The claims *)

Section Claims.
Context {Instruction InterpreterState : Type}.
Variable eval : Instruction -> list u256 -> InterpreterState ->
  result (u256 * InterpreterState).

#[local] Abbreviation Expr := (Expression Instruction).
#[local] Abbreviation Stmt := (Statement Instruction).
#[local] Abbreviation EE := (@ExpressionEvaluator Instruction InterpreterState).
#[local] Abbreviation Interp := (@Interpreter Instruction InterpreterState).

(** C1: the argument expressions of an instruction call or of a function
    call are visited from the last written one to the first, so the
    effects of a later argument come first, and the values handed on are in
    the written order. With the arguments [es ++ [e]], [e] is visited
    first, in the incoming state, the arguments [es] are visited in the
    state [e] leaves, and the value of [e] is the last of the values; the
    instruction evaluator and the call environment receive that list. In
    the test machine, [sub(sload(0), sstore(0, 7))] stores before it loads
    and computes [7 - 0]. *)
Theorem arguments_rightmost_first (n : nat) (es : list Expr) (a b e : Expr) (ev : EE)
  (i : Instruction) (f : Identifier) :
  let visit := visitExpression eval n in
  evaluateArgs visit (es ++ [e]) ev
  = (ev1 ← visit e ev;
     v ← value ev1;
     ev2 ← evaluateArgs visit es ev1;
     Ok (withValues (values ev2 ++ [v]) ev2))
  /\ evaluateArgs visit [a; b] ev
     = (ev1 ← visit b ev;
        vb ← value ev1;
        ev2 ← visit a ev1;
        va ← value ev2;
        Ok (withValues [va; vb] ev2))
  /\ visitExpression eval (S n) (EFunctionalInstruction i (es ++ [e])) ev
     = (ev1 ← visit e ev;
        v ← value ev1;
        ev2 ← evaluateArgs visit es ev1;
        '(r, st) ← eval i (values ev2 ++ [v]) (ev_state ev2);
        Ok (mkExpressionEvaluator st (ev_variables ev2) (ev_functions ev2) [r]))
  /\ visitExpression eval (S n) (EFunctionCall f (es ++ [e])) ev
     = (_ ← solAssert (negb (count (ev_functions ev) (id_name f) =? 0)%nat);
        ev1 ← visit e ev;
        v ← value ev1;
        ev2 ← evaluateArgs visit es ev1;
        fn ← mapAt (ev_functions ev2) (id_name f);
        _ ← solAssert (length (values ev2 ++ [v]) =? length (fd_parameters fn))%nat;
        args ← callArguments fn (values ev2 ++ [v]);
        interpreter ← opBlock (visitStatement eval n) (fd_body fn)
          (mkInterpreter (ev_state ev2) args (ev_functions ev2));
        vals ← forEach
          (fun retVar vs => v ← valueOfVariable interpreter (tn_name retVar); Ok (vs ++ [v]))
          (fd_returnVariables fn) [];
        Ok (mkExpressionEvaluator (m_state interpreter) (ev_variables ev2)
              (ev_functions ev2) vals))
  /\ visitExpression Machine.eval 3
       (Machine.ins Machine.SUB
          [Machine.ins Machine.SLOAD [Machine.num "0"];
           Machine.ins Machine.SSTORE [Machine.num "0"; Machine.num "7"]])
       (mkExpressionEvaluator ∅ ∅ ∅ [])
     = Ok (mkExpressionEvaluator {[0 := 7]} ∅ ∅ [7]).
Proof.
  intros visit. split; [|split; [|split; [|split]]].
  - apply evaluateArgs_snoc.
  - unfold evaluateArgs. cbn.
    destruct (visit b ev) as [ev1| |]; cbn; try reflexivity.
    destruct (value ev1) as [vb| |]; cbn; try reflexivity.
    destruct (visit a ev1) as [ev2| |]; cbn; try reflexivity.
    destruct (value ev2) as [va| |]; cbn; reflexivity.
  - rewrite visitExpression_S. unfold evFunctionalInstruction.
    fold visit. rewrite evaluateArgs_snoc.
    destruct (visit e ev) as [ev1| |]; cbn; try reflexivity.
    destruct (value ev1) as [v| |]; cbn; try reflexivity.
    destruct (evaluateArgs visit es ev1) as [ev2| |]; cbn; reflexivity.
  - rewrite visitExpression_S. unfold evFunctionCall.
    fold visit. rewrite evaluateArgs_snoc.
    destruct (solAssert _) as [[]| |]; cbn; try reflexivity.
    destruct (visit e ev) as [ev1| |]; cbn; try reflexivity.
    destruct (value ev1) as [v| |]; cbn; try reflexivity.
    destruct (evaluateArgs visit es ev1) as [ev2| |]; cbn; reflexivity.
  - vm_compute. reflexivity.
Qed.

(** C9: evaluating an expression leaves the variable bindings of the
    evaluating interpreter as they were. The evaluator ends with the maps
    it was created with, whatever calls it made, and the interpreter that
    ran [evaluateMulti] or [evaluate] differs from the one before at most
    in the shared machine state. *)
Theorem evaluation_keeps_bindings (n : nat) (e : Expr) (it it' : Interp)
  (vs : list u256) :
  evaluateMulti (visitExpression eval n) e it = Ok (vs, it') ->
  m_variables it' = m_variables it /\
  m_functions it' = m_functions it /\
  m_scopes it' = m_scopes it /\
  (exists ev',
     visitExpression eval n e
       (mkExpressionEvaluator (m_state it) (m_variables it) (m_functions it) [])
     = Ok ev' /\
     ev_variables ev' = m_variables it /\
     ev_functions ev' = m_functions it /\
     values ev' = vs /\
     it' = withState (ev_state ev') it) /\
  (forall v, vs = [v] -> evaluate (visitExpression eval n) e it = Ok (v, it')).
Proof.
  unfold evaluateMulti. intros H. bind_inv H. injection H as <- <-.
  destruct (visitExpression_sameMaps eval _ _ _ _ Hstep) as [Hv Hf]. cbn in Hv, Hf.
  repeat split; try reflexivity.
  - exists a. repeat split; assumption.
  - intros v Hvs. unfold evaluate. rewrite Hstep. cbn.
    unfold value. unfold values in Hvs. rewrite Hvs. reflexivity.
Qed.

(** C10: when a return variable of the callee has the name of one of its
    parameters, the environment of the call binds that name to zero: the
    return variables are written after the parameters. Every return
    variable reads zero in the environment, also one that a parameter
    names too. *)
Theorem return_variable_overwrites_parameter (fn : FunctionDefinition Instruction)
  (vals : list u256) (x : string) :
  length vals = length (fd_parameters fn) ->
  x ∈ names (fd_parameters fn) ->
  x ∈ names (fd_returnVariables fn) ->
  exists args, callArguments fn vals = Ok args /\ args !! x = Some 0.
Proof.
  intros Hlen _ Hx. rewrite (callArguments_eq fn vals Hlen).
  eexists. split; [reflexivity|].
  rewrite zeroed_lookup. rewrite decide_True by exact Hx. reflexivity.
Qed.

(** C7: a declaration without an initializer binds every declared name
    to zero. It succeeds exactly on pairwise different names that are not
    bound yet, and then each declared name reads as zero and every other
    binding is as before. *)
Theorem declaration_without_initializer (n : nat) (vars : list TypedName) (it : Interp) :
  let run := visitStatement eval (S n) (SVariableDeclaration vars None) it in
  (NoDup (names vars) ->
   (forall x, x ∈ names vars -> m_variables it !! x = None) ->
   exists it', run = Ok it') /\
  (forall it', run = Ok it' ->
     (forall x, x ∈ names vars -> m_variables it' !! x = Some 0) /\
     (forall y, y ∉ names vars -> m_variables it' !! y = m_variables it !! y) /\
     (forall x, x ∈ names vars -> m_variables it !! x = None) /\
     m_state it' = m_state it /\ m_functions it' = m_functions it).
Proof.
  intros run. subst run. rewrite visitStatement_S, opVariableDeclaration_None.
  assert (Hfst : (zip vars (replicate (length vars) 0)).*1 = vars).
  { apply fst_zip. rewrite length_replicate. lia. }
  set (pvs := zip vars (replicate (length vars) 0)) in *.
  split.
  - intros Hnd Hfresh. apply declare_loop_total; rewrite Hfst; [exact Hnd|].
    intros p Hp. apply Hfresh. apply list_elem_of_fmap. exists p. split; [reflexivity|exact Hp].
  - intros it' H. destruct (declare_loop_Ok _ _ _ H) as (Hin & Hout & Hfresh & Hst & Hfn & _).
    rewrite Hfst in Hout, Hfresh. repeat split; try assumption.
    + intros x Hx. apply list_elem_of_fmap in Hx as (p & -> & Hp).
      apply Hin. apply list_elem_of_lookup in Hp as [i Hi].
      apply list_elem_of_lookup. exists i. subst pvs. apply lookup_zip_Some. split; [exact Hi|].
      apply lookup_replicate_2. apply lookup_lt_Some in Hi. exact Hi.
    + intros x Hx. apply list_elem_of_fmap in Hx as (p & -> & Hp). exact (Hfresh p Hp).
Qed.

(** C4, as amended: a declaration of a name that is bound in the
    variable bindings of the interpreter never succeeds (no shadowing of a
    variable), and neither does an assignment to a name that is not bound
    there; each is a fatal error as soon as its right-hand side, if any,
    has been evaluated. *)
Theorem bound_name_guards (s : Stmt) (it : Interp) :
  redeclares s it \/ assignsUndeclared s it ->
  (forall m it', visitStatement eval m s it <> Ok it') /\
  (forall n,
     (forall e, rightHandSide s = Some e ->
        exists r, evaluateMulti (visitExpression eval n) e it = Ok r) ->
     visitStatement eval (S n) s it = Fatal).
Proof.
  intros Hs.
  assert (Hrun : forall n,
    (forall e, rightHandSide s = Some e ->
       exists r, evaluateMulti (visitExpression eval n) e it = Ok r) ->
    visitStatement eval (S n) s it = Fatal).
  { intros n He. destruct Hs as [Hs|Hs].
    - destruct s as [|? ?|vars val| | | | |]; try contradiction.
      destruct Hs as (x & Hx & Hbound). rewrite visitStatement_S.
      destruct val as [e|].
      + destruct (He e eq_refl) as [[vals it1] Hr].
        rewrite (opVariableDeclaration_Some _ _ _ _ _ _ Hr).
        destruct (length vals =? length vars)%nat eqn:Hlen; [|reflexivity].
        apply Nat.eqb_eq in Hlen.
        apply evaluateMulti_inv in Hr as [st ->].
        apply (declare_bound_Fatal _ _ x); [|exact Hbound].
        rewrite fst_zip by lia. exact Hx.
      + rewrite opVariableDeclaration_None.
        apply (declare_bound_Fatal _ _ x); [|exact Hbound].
        rewrite fst_zip by (rewrite length_replicate; lia). exact Hx.
    - destruct s as [|xs val| | | | | |]; try contradiction.
      destruct Hs as (x & Hx & Hunbound). rewrite visitStatement_S.
      destruct val as [e|]; [|reflexivity].
      destruct (He e eq_refl) as [[vals it1] Hr].
      rewrite (opAssignment_Some _ _ _ _ _ _ Hr).
      destruct (length vals =? length xs)%nat eqn:Hlen; [|reflexivity].
      apply Nat.eqb_eq in Hlen.
      apply evaluateMulti_inv in Hr as [st ->].
      apply (assign_unbound_Fatal _ _ x); [|exact Hunbound].
      rewrite fst_zip by lia. exact Hx. }
  split; [|exact Hrun].
  intros [|n] it' H; [discriminate|].
  assert (Hnot : forall e, rightHandSide s = Some e ->
            exists r, evaluateMulti (visitExpression eval n) e it = Ok r).
  { intros e He. destruct Hs as [Hs|Hs].
    - destruct s as [|? ?|vars val| | | | |]; try contradiction.
      cbn in He. subst val. rewrite visitStatement_S in H.
      unfold opVariableDeclaration in H. bind_inv H. eexists. exact Hstep.
    - destruct s as [|xs val| | | | | |]; try contradiction.
      cbn in He. subst val. rewrite visitStatement_S in H.
      unfold opAssignment in H. bind_inv H. eexists. exact Hstep. }
  rewrite (Hrun n Hnot) in H. discriminate.
Qed.

(** C5: a switch evaluates its scrutinee to one value, then the guards
    of the cases in order until one equals it; the body of that case runs
    and the switch is over. When the guards before a case without a guard
    all differ from the scrutinee, the body of that default case runs,
    once, and nothing else; cases after the one that ran are not looked
    at. When all cases have guards and none matches, no body runs. *)
Theorem switch_first_match (n : nat) (e : Expr) (pre post : list (Case Instruction))
  (it it1 it2 : Interp) (val : u256) :
  evaluate (visitExpression eval n) e it = Ok (val, it1) ->
  GuardsMiss (visitExpression eval n) val pre it1 it2 ->
  (forall g body it3,
     evaluate (visitExpression eval n) g it2 = Ok (val, it3) ->
     visitStatement eval (S n) (SSwitch (Some e) (pre ++ mkCase (Some g) body :: post)) it
     = opBlock (visitStatement eval n) body it3) /\
  (forall body,
     visitStatement eval (S n) (SSwitch (Some e) (pre ++ mkCase None body :: post)) it
     = opBlock (visitStatement eval n) body it2) /\
  visitStatement eval (S n) (SSwitch (Some e) pre) it = Ok it2.
Proof.
  intros He Hmiss. split; [|split].
  - intros g body it3 Hg.
    rewrite visitStatement_S, (opSwitch_Some _ _ _ _ _ _ _ He).
    rewrite (switchCases_miss _ _ _ _ _ _ _ Hmiss). cbn [switchCases].
    rewrite Hg. cbn. rewrite Z.eqb_refl. reflexivity.
  - intros body.
    rewrite visitStatement_S, (opSwitch_Some _ _ _ _ _ _ _ He).
    rewrite (switchCases_miss _ _ _ _ _ _ _ Hmiss). reflexivity.
  - rewrite visitStatement_S, (opSwitch_Some _ _ _ _ _ _ _ He).
    rewrite <- (app_nil_r pre). rewrite (switchCases_miss _ _ _ _ _ _ _ Hmiss).
    reflexivity.
Qed.

(** X10: a for-loop returns exactly when the statements of the
    initializer block run, once and in order, from the state with one more
    frame, the condition is then non-zero some [k] times, each time
    followed by the body block and then the post block, the condition is
    zero after that, and [closeScope] returns on the state reached. The
    names bound after the initializer are bound in every later state of
    the loop. With the initializer [let i := 0 let j := 1], the condition
    [lt(i, 3)], the post block [i := add(i, 1)] and the body
    [sstore(i, j)], the body runs exactly 3 times, reading [i] and [j]
    each time. What [closeScope] erases is not part of this statement. *)
Theorem for_loop_runs (n : nat) (pre : Block Instruction) (c : Expr)
  (post body : Block Instruction) (it : Interp) :
  let cond := evaluate (visitExpression eval n) c in
  let runBody := opBlock (visitStatement eval n) body in
  let runPost := opBlock (visitStatement eval n) post in
  (forall it',
     visitStatement eval (S n) (SForLoop pre (Some c) post body) it = Ok it' <->
     exists it1 k it2,
       forEach (visitStatement eval n) (statements pre) (openScope it) = Ok it1 /\
       (k < n)%nat /\
       Iterations cond runBody runPost k it1 it2 /\
       closeScope it2 = Ok it') /\
  (forall it1 k it2,
     framesEmpty it1 ->
     Iterations cond runBody runPost k it1 it2 ->
     dom (m_variables it1) ⊆ dom (m_variables it2)) /\
  (exists it1 it2,
     forEach (visitStatement Machine.eval 9) (statements Machine.loopPre)
       (openScope (mkInterpreter ∅ ∅ ∅)) = Ok it1 /\
     m_variables it1 = {["i" := 0; "j" := 1]} /\
     Iterations
       (evaluate (visitExpression Machine.eval 9) Machine.loopCondition)
       (opBlock (visitStatement Machine.eval 9) Machine.loopBody)
       (opBlock (visitStatement Machine.eval 9) Machine.loopPost)
       3 it1 it2 /\
     m_variables it2 = {["i" := 3; "j" := 1]} /\
     m_state it2 = {[0 := 1; 1 := 1; 2 := 1]} /\
     visitStatement Machine.eval 10 Machine.loop (mkInterpreter ∅ ∅ ∅) = Ok it2).
Proof.
  intros cond runBody runPost. split; [|split].
  - intros it'. rewrite visitStatement_S. unfold opForLoop. split.
    + intros H. bind_inv H. bind_inv H.
      apply whileLoop_Iterations in Hstep0 as (k & Hk & Hiter).
      exists a, k, a0. repeat split; assumption.
    + intros (it1 & k & it2 & Hpre & Hk & Hiter & Hclose).
      rewrite Hpre. cbn.
      assert (Hloop : whileLoop n cond (fun it => it' ← runBody it; runPost it') it1
                      = Ok it2).
      { apply whileLoop_Iterations. exists k. split; assumption. }
      subst cond runBody runPost. rewrite Hloop. cbn. exact Hclose.
  - intros it1 k it2 Hinv Hiter.
    assert (Hst : stable it1 it2).
    { clear Hinv.
      induction Hiter as [j j1 Hc|k j c0 j1 j2 j3 j4 Hc Hne Hb Hp _ IH].
      - exact (evaluate_stable _ _ _ _ _ Hc).
      - eapply stable_trans; [exact (evaluate_stable _ _ _ _ _ Hc)|].
        eapply stable_trans;
          [exact (opBlock_stable _ (visitStatement_stable eval n) _ _ _ Hb)|].
        eapply stable_trans;
          [exact (opBlock_stable _ (visitStatement_stable eval n) _ _ _ Hp)|].
        exact IH. }
    apply (Hst Hinv).
  - pose (at_ := fun (i : Z) (st : gmap Z Z) (frames : nat) =>
              @mkInterpreterFull Machine.Instruction Machine.State st
                {["i" := i; "j" := 1]} ∅ (replicate frames ∅)).
    exists (at_ 0 ∅ 1%nat), (at_ 3 {[0 := 1; 1 := 1; 2 := 1]} 7%nat).
    split; [vm_compute; reflexivity|].
    split; [vm_compute; reflexivity|].
    split.
    { apply iter_again with (c := 1) (it1 := at_ 0 ∅ 1%nat)
        (it2 := at_ 0 {[0 := 1]} 2%nat) (it3 := at_ 1 {[0 := 1]} 3%nat);
        [vm_compute; reflexivity | discriminate
        | vm_compute; reflexivity | vm_compute; reflexivity |].
      apply iter_again with (c := 1) (it1 := at_ 1 {[0 := 1]} 3%nat)
        (it2 := at_ 1 {[0 := 1; 1 := 1]} 4%nat)
        (it3 := at_ 2 {[0 := 1; 1 := 1]} 5%nat);
        [vm_compute; reflexivity | discriminate
        | vm_compute; reflexivity | vm_compute; reflexivity |].
      apply iter_again with (c := 1) (it1 := at_ 2 {[0 := 1; 1 := 1]} 5%nat)
        (it2 := at_ 2 {[0 := 1; 1 := 1; 2 := 1]} 6%nat)
        (it3 := at_ 3 {[0 := 1; 1 := 1; 2 := 1]} 7%nat);
        [vm_compute; reflexivity | discriminate
        | vm_compute; reflexivity | vm_compute; reflexivity |].
      apply iter_stop. vm_compute. reflexivity. }
    split; [vm_compute; reflexivity|].
    split; vm_compute; reflexivity.
Qed.

(** C6, what the code does instead: the loop itself runs as the claim
    says (the body of the example runs 3 times, with [i] and [j] bound
    throughout), but the scope of the initializer is not closed: no name
    was ever put into its frame, so [closeScope] erases nothing, [i] and
    [j] are still bound after the for-statement and the frames of the
    loop and of its 6 block runs stay on the stack. A second loop with
    the same initializer, right after the first, fails at its [let i]. *)
Theorem for_loop_leaves_initializer_bound :
  visitStatement Machine.eval 10 Machine.loop Machine.fresh
  = Ok (mkInterpreterFull {[0 := 1; 1 := 1; 2 := 1]} {["i" := 3; "j" := 1]} ∅
          (replicate 7 ∅)) /\
  (forall k, (9 <= k)%nat ->
     visitStatement Machine.eval k Machine.twoLoops Machine.fresh = Fatal).
Proof.
  split; [vm_compute; reflexivity|].
  intros k Hk.
  rewrite (visitStatement_more Machine.eval 9 k _ _ Hk);
    [vm_compute; reflexivity | vm_compute; discriminate].
Qed.

(** C3: a function call whose evaluated argument count differs from the
    parameter count of the callee is fatal. Otherwise the body of the
    callee runs in a new interpreter whose variable bindings are exactly
    the parameters, bound by position to the argument values, and the
    return variables, bound to zero; when the body returns, the values of
    the call are the return variables read back in their declared order,
    and the bindings of the caller are as before. Functions in the table
    at the call site can be called from the body: the self-calling
    factorial of 5 returns 120 in the test machine, and the mutually
    recursive [even] and [odd] return. *)
Theorem function_call_contract (n : nat) (f : Identifier) (args : list Expr)
  (ev ev1 : EE) (fn : FunctionDefinition Instruction) :
  ev_functions ev !! id_name f = Some fn ->
  evaluateArgs (visitExpression eval n) args ev = Ok ev1 ->
  let call := visitExpression eval (S n) (EFunctionCall f args) ev in
  (length (values ev1) <> length (fd_parameters fn) -> call = Fatal) /\
  (length (values ev1) = length (fd_parameters fn) ->
   exists env,
     callArguments fn (values ev1) = Ok env /\
     dom env = list_to_set (names (fd_parameters fn))
               ∪ list_to_set (names (fd_returnVariables fn)) /\
     (forall x, x ∈ names (fd_returnVariables fn) -> env !! x = Some 0) /\
     (NoDup (names (fd_parameters fn)) ->
      forall i p v,
        fd_parameters fn !! i = Some p -> values ev1 !! i = Some v ->
        tn_name p ∉ names (fd_returnVariables fn) ->
        env !! tn_name p = Some v) /\
     let callee := mkInterpreter (ev_state ev1) env (ev_functions ev) in
     let run := opBlock (visitStatement eval n) (fd_body fn) callee in
     (run = Fatal -> call = Fatal) /\
     (run = OutOfFuel -> call = OutOfFuel) /\
     (forall it',
        run = Ok it' ->
        exists vals,
          Forall2 (fun r v => m_variables it' !! tn_name r = Some v)
            (fd_returnVariables fn) vals /\
          call = Ok (mkExpressionEvaluator (m_state it') (ev_variables ev)
                       (ev_functions ev) vals))) /\
  (forall (k : nat) (st : Machine.State) (vars : gmap string u256),
     (30 <= k)%nat ->
     visitExpression Machine.eval k (Machine.call "f" [Machine.num "5"])
       (mkExpressionEvaluator st vars {["f" := Machine.factorial]} [])
     = Ok (mkExpressionEvaluator st vars {["f" := Machine.factorial]} [120])) /\
  (forall (k : nat) (st : Machine.State) (vars : gmap string u256),
     (40 <= k)%nat ->
     visitExpression Machine.eval k (Machine.call "even" [Machine.num "4"])
       (mkExpressionEvaluator st vars
          {["even" := Machine.isEven; "odd" := Machine.isOdd]} [])
     = Ok (mkExpressionEvaluator st vars
             {["even" := Machine.isEven; "odd" := Machine.isOdd]} [1])).
Proof.
  intros Hfn Hargs call.
  destruct (evaluateArgs_sameMaps _ (visitExpression_sameMaps eval n) _ _ _ Hargs)
    as [Hvars Hfuns].
  assert (Hcall : call
    = (_ ← solAssert (length (m_values ev1) =? length (fd_parameters fn))%nat;
       env ← callArguments fn (m_values ev1);
       interpreter ← opBlock (visitStatement eval n) (fd_body fn)
         (mkInterpreter (ev_state ev1) env (ev_functions ev));
       vals ← forEach
         (fun retVar vs => v ← valueOfVariable interpreter (tn_name retVar); Ok (vs ++ [v]))
         (fd_returnVariables fn) [];
       Ok (mkExpressionEvaluator (m_state interpreter) (ev_variables ev)
             (ev_functions ev) vals))).
  { subst call. rewrite visitExpression_S. unfold evFunctionCall.
    unfold count. rewrite Hfn. cbn. rewrite Hargs. cbn.
    unfold mapAt. rewrite Hfuns, Hfn. cbn.
    unfold withValues, withEvState. cbn. rewrite Hvars, Hfuns. reflexivity. }
  split; [|split; [|split]].
  - intros Hlen. rewrite Hcall.
    apply Nat.eqb_neq in Hlen. unfold values in Hlen. rewrite Hlen. reflexivity.
  - intros Hlen. unfold values in *.
    rewrite Hcall, Hlen, Nat.eqb_refl. cbn.
    rewrite (callArguments_eq fn _ Hlen). cbn.
    eexists. split; [reflexivity|]. split; [|split; [|split]].
    + rewrite zeroed_dom, bound_dom by exact Hlen. rewrite dom_empty_L. set_solver.
    + intros x Hx. rewrite zeroed_lookup, decide_True by exact Hx. reflexivity.
    + intros Hnd i p v Hp Hv Hnot.
      rewrite zeroed_lookup, decide_False by exact Hnot.
      exact (bound_lookup_Some _ _ _ _ _ _ Hnd Hp Hv).
    + cbv zeta.
      match goal with |- context [opBlock ?v ?b ?c] =>
        destruct (opBlock v b c) as [it'| |] eqn:Hrun end; cbn.
      * split; [discriminate|]. split; [discriminate|].
        intros it'' Heq. injection Heq as <-.
        destruct (readback_loop it' (fd_returnVariables fn) []) as (vals & Hread & Hall).
        { intros r Hr.
          pose proof (opBlock_stable _ (visitStatement_stable eval n) _ _ _ Hrun) as Hst.
          destruct (Hst ltac:(constructor)) as (Hdom & _). cbn in Hdom.
          apply elem_of_dom. apply Hdom.
          rewrite zeroed_dom. apply elem_of_union. right.
          apply elem_of_list_to_set. apply list_elem_of_fmap.
          exists r. split; [reflexivity | exact Hr]. }
        exists vals. split; [exact Hall|]. rewrite Hread. reflexivity.
      * split; [reflexivity|]. split; [discriminate|]. intros it' Heq. discriminate.
      * split; [discriminate|]. split; [reflexivity|]. intros it' Heq. discriminate.
  - intros k st vars Hk.
    rewrite (visitExpression_more Machine.eval 30 k _ _ Hk);
      [vm_compute; reflexivity | vm_compute; discriminate].
  - intros k st vars Hk.
    rewrite (visitExpression_more Machine.eval 40 k _ _ Hk);
      [vm_compute; reflexivity | vm_compute; discriminate].
Qed.

(** C8: a string literal of at most 32 bytes evaluates to the word whose
    32 big-endian bytes are the bytes of the literal followed by zeros; for
    a literal of exactly 32 bytes they are the bytes of the literal. A
    longer string literal is fatal. *)
Theorem string_literal_left_aligned (n : nat) (s : string) (ev : EE) :
  let w := fromBigEndian (h256_alignLeft (asBytes s)) in
  let run := visitExpression eval (S n) (ELiteral (mkLiteral String_ s)) ev in
  ((String.length s <= 32)%nat ->
   run = Ok (setValue w ev) /\
   toBigEndian 32 w = asBytes s ++ replicate (32 - String.length s) 0 /\
   0 <= w < modulus) /\
  (String.length s = 32%nat -> run = Ok (setValue w ev) /\ toBigEndian 32 w = asBytes s) /\
  ((32 < String.length s)%nat -> run = Fatal).
Proof.
  intros w run.
  assert (Hshort : (String.length s <= 32)%nat ->
    run = Ok (setValue w ev) /\
    toBigEndian 32 w = asBytes s ++ replicate (32 - String.length s) 0 /\
    0 <= w < modulus).
  { intros Hlen. split.
    { subst run w. rewrite visitExpression_S. unfold evLiteral.
      cbn [lit_kind lit_value].
      replace (String.length s <=? 32)%nat with true
        by (symmetry; apply Nat.leb_le; exact Hlen).
      reflexivity. }
    subst w.
    rewrite h256_alignLeft_short by (rewrite length_asBytes; exact Hlen).
    rewrite length_asBytes.
    set (bs := asBytes s ++ replicate (32 - String.length s) 0).
    assert (Hbytes : Forall isByte bs).
    { apply Forall_app. split; [apply asBytes_isByte|].
      apply Forall_replicate. unfold isByte. lia. }
    assert (Hl : length bs = 32%nat).
    { subst bs. rewrite length_app, length_asBytes, length_replicate. lia. }
    split.
    - rewrite <- Hl at 1. apply toBigEndian_fromBigEndian. exact Hbytes.
    - pose proof (fromBigEndian_bound bs Hbytes) as Hb. rewrite Hl in Hb.
      unfold modulus. change (256 ^ Z.of_nat 32) with (2 ^ 256) in Hb. exact Hb. }
  split; [exact Hshort|]. split.
  - intros Hlen. destruct (Hshort ltac:(lia)) as (Hrun & Hbytes & _).
    split; [exact Hrun|]. rewrite Hbytes, Hlen. cbn. apply app_nil_r.
  - intros Hlen. subst run. rewrite visitExpression_S. unfold evLiteral.
    cbn [lit_kind lit_value].
    replace (String.length s <=? 32)%nat with false; [reflexivity|].
    symmetry. apply Nat.leb_gt. exact Hlen.
Qed.

(** C2, what the code does instead: nothing is ever inserted into a
    scope frame, so the block [{ let x := 1 }] run from the initial
    interpreter ends with [x] still bound, a function defined in a block
    stays in the function table after the block, and the second of two
    sibling blocks that both declare [x] fails. *)
Theorem block_leaves_names_bound :
  visitStatement Machine.eval 4 (Machine.scoped "1") Machine.fresh
  = Ok (mkInterpreterFull ∅ {["x" := 1]} ∅ [∅]) /\
  visitStatement Machine.eval 4 Machine.scopedFunction Machine.fresh
  = Ok (mkInterpreterFull ∅ ∅ {["g" := Machine.emptyFunction]} [∅]) /\
  (forall k, (5 <= k)%nat ->
     visitStatement Machine.eval k Machine.siblings Machine.fresh = Fatal).
Proof.
  split; [vm_compute; reflexivity|]. split; [vm_compute; reflexivity|].
  intros k Hk.
  rewrite (visitStatement_more Machine.eval 5 k _ _ Hk);
    [vm_compute; reflexivity | vm_compute; discriminate].
Qed.

(** C4 as stated fails: a declaration of a name that is visible as a
    function, and not as a variable, succeeds. *)
Lemma declaration_over_function_succeeds :
  is_Some (m_functions
             (mkInterpreter (∅ : Machine.State) ∅ {["f" := Machine.factorial]}) !! "f") /\
  visitStatement Machine.eval 1 (SVariableDeclaration [Machine.tn "f"] None)
    (mkInterpreter ∅ ∅ {["f" := Machine.factorial]})
  = Ok (mkInterpreterFull ∅ {["f" := 0]} {["f" := Machine.factorial]} []).
Proof.
  split; [eexists; vm_compute; reflexivity | vm_compute; reflexivity].
Qed.

End Claims.

(** * The theorems at concrete inputs of the test machine *)

Lemma evaluation_keeps_bindings_witness :
  let e := Machine.ins Machine.SSTORE [Machine.num "0"; Machine.call "f" [Machine.num "5"]] in
  let it := mkInterpreterFull (∅ : Machine.State) {["n" := 77; "r" := 88]}
              {["f" := Machine.factorial]} [] in
  let it' := withState ({[0 := 120]} : Machine.State) it in
  evaluateMulti (visitExpression Machine.eval 32) e it = Ok ([0], it') /\
  m_variables it' = m_variables it.
Proof.
  intros e it it'.
  assert (H : evaluateMulti (visitExpression Machine.eval 32) e it = Ok ([0], it'))
    by (vm_compute; reflexivity).
  split; [exact H|].
  exact (proj1 (evaluation_keeps_bindings Machine.eval 32 e it it' [0] H)).
Defined.

Lemma return_variable_overwrites_parameter_witness :
  let fn : FunctionDefinition Machine.Instruction :=
    mkFunctionDefinition "f" [Machine.tn "a"; Machine.tn "b"] [Machine.tn "a"] (mkBlock []) in
  length [5; 6] = length (fd_parameters fn) /\
  "a" ∈ names (fd_parameters fn) /\
  "a" ∈ names (fd_returnVariables fn) /\
  exists args, callArguments fn [5; 6] = Ok args /\ args !! "a" = Some 0.
Proof.
  intros fn.
  assert (H1 : length [5; 6] = length (fd_parameters fn)) by reflexivity.
  assert (H2 : "a" ∈ names (fd_parameters fn)) by (cbn; constructor).
  assert (H3 : "a" ∈ names (fd_returnVariables fn)) by (cbn; constructor).
  split; [exact H1|]. split; [exact H2|]. split; [exact H3|].
  exact (return_variable_overwrites_parameter fn [5; 6] "a" H1 H2 H3).
Defined.

Lemma declaration_without_initializer_witness :
  let vars := [Machine.tn "a"; Machine.tn "b"] in
  NoDup (names vars) /\
  (forall x, x ∈ names vars -> m_variables Machine.fresh !! x = None) /\
  exists it', visitStatement Machine.eval 1 (SVariableDeclaration vars None) Machine.fresh
              = Ok it'.
Proof.
  intros vars.
  assert (H1 : NoDup (names vars)).
  { cbn. apply NoDup_cons. split; [|apply NoDup_cons; split; [|apply NoDup_nil_2]].
    - intros H. apply list_elem_of_singleton in H. discriminate.
    - intros H. inversion H. }
  assert (H2 : forall x, x ∈ names vars -> m_variables Machine.fresh !! x = None)
    by (intros x _; apply lookup_empty).
  split; [exact H1|]. split; [exact H2|].
  exact (proj1 (declaration_without_initializer Machine.eval 0 vars Machine.fresh) H1 H2).
Defined.

Lemma bound_name_guards_witness :
  let s : Statement Machine.Instruction := SVariableDeclaration [Machine.tn "x"] None in
  let it : @Interpreter Machine.Instruction Machine.State :=
    mkInterpreter ∅ {["x" := 1]} ∅ in
  (redeclares s it \/ assignsUndeclared s it) /\
  visitStatement Machine.eval 1 s it = Fatal.
Proof.
  intros s it.
  assert (H : redeclares s it \/ assignsUndeclared s it).
  { left. exists "x". split; [constructor | eexists; vm_compute; reflexivity]. }
  split; [exact H|].
  apply (proj2 (bound_name_guards Machine.eval s it H) 0%nat).
  intros e He. discriminate.
Defined.

Lemma switch_first_match_witness :
  let e := Machine.num "2" in
  let pre := [mkCase (Some (Machine.num "1")) (Machine.store "0" "1")] in
  evaluate (visitExpression Machine.eval 5) e Machine.fresh = Ok (2, Machine.fresh) /\
  GuardsMiss (visitExpression Machine.eval 5) 2 pre Machine.fresh Machine.fresh /\
  visitStatement Machine.eval 6 (Machine.switchOn "2") Machine.fresh
  = Ok (mkInterpreterFull {[0 := 2]} ∅ ∅ [∅]) /\
  visitStatement Machine.eval 6
    (SSwitch (Some e) (pre ++ mkCase None (Machine.store "0" "3")
                         :: [mkCase (Some (Machine.num "2")) (Machine.store "0" "2")]))
    Machine.fresh
  = Ok (mkInterpreterFull {[0 := 3]} ∅ ∅ [∅]).
Proof.
  intros e pre.
  assert (H1 : evaluate (visitExpression Machine.eval 5) e Machine.fresh
               = Ok (2, Machine.fresh)) by (vm_compute; reflexivity).
  assert (H2 : GuardsMiss (visitExpression Machine.eval 5) 2 pre
                 Machine.fresh Machine.fresh).
  { apply miss_cons with (v := 1) (it1 := Machine.fresh);
      [vm_compute; reflexivity | discriminate | apply miss_nil]. }
  split; [exact H1|]. split; [exact H2|].
  destruct (switch_first_match Machine.eval 5 e pre
              [mkCase None (Machine.store "0" "3")]
              Machine.fresh Machine.fresh Machine.fresh 2 H1 H2) as (Hmatch & _ & _).
  destruct (switch_first_match Machine.eval 5 e pre
              [mkCase (Some (Machine.num "2")) (Machine.store "0" "2")]
              Machine.fresh Machine.fresh Machine.fresh 2 H1 H2) as (_ & Hdefault & _).
  split.
  - assert (H3 : evaluate (visitExpression Machine.eval 5) (Machine.num "2") Machine.fresh
                 = Ok (2, Machine.fresh)) by (vm_compute; reflexivity).
    eapply eq_trans;
      [exact (Hmatch (Machine.num "2") (Machine.store "0" "2") Machine.fresh H3)|].
    vm_compute. reflexivity.
  - eapply eq_trans; [exact (Hdefault (Machine.store "0" "3"))|].
    vm_compute. reflexivity.
Defined.

Lemma for_loop_runs_witness :
  exists it', visitStatement Machine.eval 10 Machine.loop Machine.fresh = Ok it' /\
              m_state it' = {[0 := 1; 1 := 1; 2 := 1]}.
Proof.
  destruct (for_loop_runs Machine.eval 9 Machine.loopPre Machine.loopCondition
              Machine.loopPost Machine.loopBody Machine.fresh)
    as (_ & _ & it1 & it2 & _ & _ & _ & _ & Hstate & Hrun).
  exists it2. split; [exact Hrun | exact Hstate].
Defined.

Lemma function_call_contract_witness :
  let f := mkIdentifier "f" in
  let args := [Machine.num "0"; Machine.num "1"] in
  let ev := mkExpressionEvaluator (∅ : Machine.State) ∅ {["f" := Machine.factorial]} [] in
  let ev1 := mkExpressionEvaluator (∅ : Machine.State) ∅ {["f" := Machine.factorial]} [0; 1] in
  ev_functions ev !! id_name f = Some Machine.factorial /\
  evaluateArgs (visitExpression Machine.eval 3) args ev = Ok ev1 /\
  visitExpression Machine.eval 4 (EFunctionCall f args) ev = Fatal.
Proof.
  intros f args ev ev1.
  assert (H1 : ev_functions ev !! id_name f = Some Machine.factorial)
    by (vm_compute; reflexivity).
  assert (H2 : evaluateArgs (visitExpression Machine.eval 3) args ev = Ok ev1)
    by (vm_compute; reflexivity).
  split; [exact H1|]. split; [exact H2|].
  apply (proj1 (function_call_contract Machine.eval 3 f args ev ev1 Machine.factorial H1 H2)).
  cbn. discriminate.
Defined.

Lemma string_literal_left_aligned_witness :
  (String.length "abc" <= 32)%nat /\
  visitExpression Machine.eval 1 (ELiteral (mkLiteral String_ "abc"))
    (mkExpressionEvaluator (∅ : Machine.State) ∅ ∅ [])
  = Ok (mkExpressionEvaluator ∅ ∅ ∅ [(97 * 256 * 256 + 98 * 256 + 99) * 256 ^ 29]).
Proof.
  assert (H : (String.length "abc" <= 32)%nat) by (cbn; lia).
  split; [exact H|].
  rewrite (proj1 (proj1 (string_literal_left_aligned Machine.eval 0 "abc"
                           (mkExpressionEvaluator (∅ : Machine.State) ∅ ∅ [])) H)).
  vm_compute. reflexivity.
Defined.

(** * Further properties of the visitors *)

Section Further.
Context {Instruction InterpreterState : Type}.
Variable eval : Instruction -> list u256 -> InterpreterState ->
  result (u256 * InterpreterState).

#[local] Abbreviation Expr := (Expression Instruction).
#[local] Abbreviation Stmt := (Statement Instruction).
#[local] Abbreviation EE := (@ExpressionEvaluator Instruction InterpreterState).
#[local] Abbreviation Interp := (@Interpreter Instruction InterpreterState).

(** ** Value counts *)

Lemma evaluateArgs_loop_length (visit : Expr -> EE -> result EE) (l : list Expr)
  (vs0 vs : list u256) (ev ev' : EE) :
  forEach (fun expr '(vs, ev) => ev' ← visit expr ev; v ← value ev'; Ok (vs ++ [v], ev'))
    l (vs0, ev) = Ok (vs, ev') ->
  length vs = (length vs0 + length l)%nat.
Proof.
  revert vs0 ev. induction l as [|e l IH]; intros vs0 ev H; cbn in H.
  - injection H as <- _. cbn. lia.
  - bind_inv H. bind_inv Hstep. bind_inv Hstep. injection Hstep as <-.
    apply IH in H. rewrite length_app in H. cbn in *. lia.
Qed.

(** X1: when [evaluateArgs] returns, it leaves exactly one value per
    argument expression. *)
Theorem evaluateArgs_one_value_each (visit : Expr -> EE -> result EE)
  (es : list Expr) (ev ev' : EE) :
  evaluateArgs visit es ev = Ok ev' ->
  length (values ev') = length es.
Proof.
  intros H. unfold evaluateArgs in H. bind_inv H. destruct a as [vs ev1].
  injection H as <-. apply evaluateArgs_loop_length in Hstep.
  unfold values. cbn. rewrite length_rev, Hstep, length_rev. reflexivity.
Qed.

Lemma readback_length (it : Interp) (rets : list TypedName) (acc vals : list u256) :
  forEach (fun retVar vs => v ← valueOfVariable it (tn_name retVar); Ok (vs ++ [v]))
    rets acc = Ok vals ->
  length vals = (length acc + length rets)%nat.
Proof.
  revert acc. induction rets as [|r rets IH]; intros acc H; cbn in H.
  - injection H as <-. cbn. lia.
  - bind_inv H. bind_inv Hstep. injection Hstep as <-.
    apply IH in H. rewrite length_app in H. cbn in *. lia.
Qed.

Lemma functionCall_value_count (n : nat) (f : Identifier) (args : list Expr)
  (ev ev' : EE) :
  evFunctionCall (visitExpression eval n) (opBlock (visitStatement eval n)) f args ev
  = Ok ev' ->
  exists fn, ev_functions ev !! id_name f = Some fn /\
             length (values ev') = length (fd_returnVariables fn).
Proof.
  intros H. unfold evFunctionCall in H. do 7 bind_inv H. injection H as <-.
  destruct (evaluateArgs_sameMaps _ (visitExpression_sameMaps eval n) _ _ _ Hstep0)
    as [_ Hfuns].
  unfold mapAt in Hstep1. rewrite Hfuns in Hstep1.
  destruct (ev_functions ev !! id_name f) as [fn|] eqn:Hfn; [|discriminate].
  injection Hstep1 as <-. exists fn. split; [reflexivity|].
  apply readback_length in Hstep5. exact Hstep5.
Qed.

(** X2: a literal, an identifier and an instruction call that evaluate
    leave exactly one value (an instruction that returns nothing too); a
    function call that evaluates leaves as many values as its callee has
    return variables. *)
Theorem expression_value_count (n : nat) (e : Expr) (ev ev' : EE) :
  visitExpression eval n e ev = Ok ev' ->
  match e with
  | EFunctionCall f _ =>
      exists fn, ev_functions ev !! id_name f = Some fn /\
                 length (values ev') = length (fd_returnVariables fn)
  | _ => length (values ev') = 1%nat
  end.
Proof.
  destruct n as [|n]; [discriminate|]. rewrite visitExpression_S.
  destruct e as [i args|f args|i|l]; intros H.
  - unfold evFunctionalInstruction in H. bind_inv H. bind_inv H.
    destruct a0 as [v st]. injection H as <-. reflexivity.
  - exact (functionCall_value_count n f args ev ev' H).
  - unfold evIdentifier in H. do 2 bind_inv H. injection H as <-. reflexivity.
  - unfold evLiteral in H.
    destruct (lit_kind l); bind_inv H; injection H as <-; reflexivity.
Qed.

(** X3: where one value is required ([evaluate]: the condition of an
    if or of a loop, the scrutinee and the guards of a switch), a function
    call only evaluates when its callee has exactly one return variable. *)
Theorem single_value_needs_one_return (n : nat) (f : Identifier) (args : list Expr)
  (it it' : Interp) (v : u256) :
  evaluate (visitExpression eval n) (EFunctionCall f args) it = Ok (v, it') ->
  exists fn, m_functions it !! id_name f = Some fn /\
             length (fd_returnVariables fn) = 1%nat.
Proof.
  unfold evaluate. intros H. bind_inv H. bind_inv H.
  destruct n as [|n]; [discriminate|]. rewrite visitExpression_S in Hstep.
  destruct (functionCall_value_count n f args _ _ Hstep) as (fn & Hfn & Hlen).
  exists fn. split; [exact Hfn|]. rewrite <- Hlen.
  unfold value in Hstep0. unfold values.
  destruct (m_values a) as [|w [|w' l]]; try discriminate. reflexivity.
Qed.

(** ** Scopes *)

(** X4: from an interpreter whose scope frames are all empty (the
    constructor's is), a statement that returns has removed no binding:
    every variable and every function bound before is bound after, the
    frames are still all empty, and the scope stack has not shrunk; a
    block leaves at least one more frame on it, which is never popped. *)
Theorem statements_never_unbind (n : nat) (s : Stmt) (it it' : Interp) :
  framesEmpty it ->
  visitStatement eval n s it = Ok it' ->
  dom (m_variables it) ⊆ dom (m_variables it') /\
  dom (m_functions it) ⊆ dom (m_functions it') /\
  framesEmpty it' /\
  (length (m_scopes it) <= length (m_scopes it'))%nat /\
  (forall b, s = SBlock b -> (length (m_scopes it) < length (m_scopes it'))%nat).
Proof.
  intros Hinv H.
  destruct (visitStatement_stable eval n s it it' H Hinv) as (Hv & Hf & Hlen & Hinv').
  repeat split; try assumption.
  intros b ->. destruct n as [|n]; [discriminate|].
  rewrite visitStatement_S in H. unfold opBlock in H. bind_inv H.
  assert (H0 : framesEmpty (openScope it)).
  { apply Forall_app. split; [exact Hinv | apply Forall_singleton; reflexivity]. }
  assert (H1 : stable (openScope it) a).
  { eapply stable_trans;
      [apply (register_stable _ (visitStatement_stable eval n))|].
    eapply forEach_stable; [exact (visitStatement_stable eval n) | exact Hstep]. }
  destruct (H1 H0) as (_ & _ & Hlen1 & Ha).
  cbn in Hlen1. rewrite length_app in Hlen1. cbn in Hlen1.
  rewrite closeScope_empty_frame in H.
  - injection H as <-. lia.
  - exact Ha.
  - intros Hnil. rewrite Hnil in Hlen1. cbn in Hlen1. lia.
Qed.

Definition closeOne (var : string) (it : Interp) : result Interp :=
  _ ← solAssert (count (m_variables it) var + count (m_functions it) var =? 1)%nat;
  Ok (withFunctions (delete var (m_functions it))
        (withVariables (delete var (m_variables it)) it)).

Lemma closeLoop_Ok (l : list string) (it : Interp) :
  NoDup l ->
  (forall x, x ∈ l -> (count (m_variables it) x + count (m_functions it) x = 1)%nat) ->
  exists it',
    forEach closeOne l it = Ok it' /\
    (forall y, m_variables it' !! y = if decide (y ∈ l) then None else m_variables it !! y) /\
    (forall y, m_functions it' !! y = if decide (y ∈ l) then None else m_functions it !! y) /\
    m_scopes it' = m_scopes it /\ m_state it' = m_state it.
Proof.
  revert it. induction l as [|x l IH]; intros it Hnd Hone.
  - exists it. repeat split; intros; try reflexivity;
      (rewrite decide_False; [reflexivity | intros Hin; inversion Hin]).
  - apply NoDup_cons in Hnd as [Hx Hnd].
    set (it1 := withFunctions (delete x (m_functions it))
                  (withVariables (delete x (m_variables it)) it)).
    assert (Hone1 : closeOne x it = Ok it1).
    { unfold closeOne. rewrite (Hone x ltac:(constructor)). reflexivity. }
    change (forEach closeOne (x :: l) it)
      with (s' ← closeOne x it; forEach closeOne l s').
    rewrite Hone1. cbn [mbind result_bind].
    destruct (IH it1 Hnd) as (it' & Hrun & Hv & Hf & Hsc & Hst).
    { intros y Hy. subst it1. unfold count. cbn.
      assert (Hne : x <> y) by (intros ->; contradiction).
      rewrite !lookup_delete_ne by exact Hne.
      apply (Hone y). apply elem_of_cons. right. exact Hy. }
    exists it'. split; [exact Hrun|]. subst it1. cbn in *.
    repeat split; try assumption.
    + intros y. rewrite Hv. destruct (decide (y = x)) as [->|Hne].
      * rewrite decide_False by exact Hx. rewrite lookup_delete_eq.
        rewrite decide_True by constructor. reflexivity.
      * rewrite lookup_delete_ne by congruence.
        destruct (decide (y ∈ l)) as [Hin|Hnin].
        -- rewrite decide_True by (apply elem_of_cons; right; exact Hin). reflexivity.
        -- rewrite decide_False; [reflexivity|].
           intros [?|?]%elem_of_cons; contradiction.
    + intros y. rewrite Hf. destruct (decide (y = x)) as [->|Hne].
      * rewrite decide_False by exact Hx. rewrite lookup_delete_eq.
        rewrite decide_True by constructor. reflexivity.
      * rewrite lookup_delete_ne by congruence.
        destruct (decide (y ∈ l)) as [Hin|Hnin].
        -- rewrite decide_True by (apply elem_of_cons; right; exact Hin). reflexivity.
        -- rewrite decide_False; [reflexivity|].
           intros [?|?]%elem_of_cons; contradiction.
Qed.

Lemma closeLoop_Fatal (l : list string) (it : Interp) (x : string) :
  x ∈ l ->
  (count (m_variables it) x + count (m_functions it) x <> 1)%nat ->
  forEach closeOne l it = Fatal.
Proof.
  revert it. induction l as [|y l IH]; intros it Hx Hbad; [inversion Hx|].
  change (forEach closeOne (y :: l) it)
    with (s' ← closeOne y it; forEach closeOne l s').
  destruct (count (m_variables it) y + count (m_functions it) y =? 1)%nat eqn:Hy.
  2: { replace (closeOne y it) with (@Fatal Interp); [reflexivity|].
       unfold closeOne. rewrite Hy. reflexivity. }
  replace (closeOne y it)
    with (Ok (withFunctions (delete y (m_functions it))
                (withVariables (delete y (m_variables it)) it))).
  2: { unfold closeOne. rewrite Hy. reflexivity. }
  cbn [mbind result_bind]. apply Nat.eqb_eq in Hy.
  assert (Hne : y <> x) by (intros ->; contradiction).
  apply IH.
  - apply elem_of_cons in Hx as [->|Hx]; [contradiction | exact Hx].
  - unfold count in *. cbn. rewrite !lookup_delete_ne by exact Hne. exact Hbad.
Qed.

(** X5: [closeScope] on an innermost frame whose names are each bound
    exactly once, as a variable or as a function, erases exactly these
    names from the two maps and keeps every other binding; the frame
    stays on the stack, so closing once more fails unless the frame is
    empty. A frame with a name that is bound in neither map, or in both,
    makes [closeScope] fail. *)
Theorem closeScope_erases_frame (it : Interp) (frame : gset string) :
  last (m_scopes it) = Some frame ->
  ((forall x, x ∈ frame ->
      (count (m_variables it) x + count (m_functions it) x = 1)%nat) ->
   exists it',
     closeScope it = Ok it' /\
     (forall y, m_variables it' !! y
                = if decide (y ∈ frame) then None else m_variables it !! y) /\
     (forall y, m_functions it' !! y
                = if decide (y ∈ frame) then None else m_functions it !! y) /\
     m_scopes it' = m_scopes it /\
     m_state it' = m_state it /\
     (frame <> ∅ -> closeScope it' = Fatal)) /\
  (forall x, x ∈ frame ->
     (count (m_variables it) x + count (m_functions it) x <> 1)%nat ->
     closeScope it = Fatal).
Proof.
  intros Hlast. split.
  - intros Hone.
    destruct (closeLoop_Ok (elements frame) it (NoDup_elements frame))
      as (it' & Hrun & Hv & Hf & Hsc & Hst).
    { intros x Hx. apply Hone. apply elem_of_elements. exact Hx. }
    exists it'. split; [unfold closeScope; rewrite Hlast; exact Hrun|].
    split.
    { intros y. rewrite Hv.
      destruct (decide (y ∈ elements frame)) as [Hin|Hnin].
      - rewrite decide_True by (apply elem_of_elements; exact Hin). reflexivity.
      - rewrite decide_False; [reflexivity|].
        intros Hin. apply Hnin. apply elem_of_elements. exact Hin. }
    split.
    { intros y. rewrite Hf.
      destruct (decide (y ∈ elements frame)) as [Hin|Hnin].
      - rewrite decide_True by (apply elem_of_elements; exact Hin). reflexivity.
      - rewrite decide_False; [reflexivity|].
        intros Hin. apply Hnin. apply elem_of_elements. exact Hin. }
    split; [exact Hsc|]. split; [exact Hst|].
    intros Hne. apply set_choose_L in Hne as [x Hx].
    unfold closeScope. rewrite Hsc, Hlast.
    apply (closeLoop_Fatal _ _ x); [apply elem_of_elements; exact Hx|].
    unfold count. rewrite Hv, Hf.
    rewrite !decide_True by (apply elem_of_elements; exact Hx). cbn. lia.
  - intros x Hx Hbad. unfold closeScope. rewrite Hlast.
    apply (closeLoop_Fatal _ _ x); [apply elem_of_elements; exact Hx | exact Hbad].
Qed.

(** ** Function registration of a block *)

(** The function definitions that are direct statements of a block. *)
Definition definedIn (l : list Stmt) : list (FunctionDefinition Instruction) :=
  omap (fun s => match s with SFunctionDefinition fd => Some fd | _ => None end) l.

Definition registerFunctions (l : list Stmt) (it : Interp) : Interp :=
  fold_left
    (fun it s =>
       match s with
       | SFunctionDefinition funDef =>
           withFunctions (<[fd_name funDef := funDef]> (m_functions it)) it
       | _ => it
       end) l it.

Lemma registerFunctions_spec (l : list Stmt) (it : Interp) :
  m_state (registerFunctions l it) = m_state it /\
  m_variables (registerFunctions l it) = m_variables it /\
  m_scopes (registerFunctions l it) = m_scopes it /\
  forall x,
    m_functions (registerFunctions l it) !! x
    = match last (filter (fun fd => fd_name fd = x) (definedIn l)) with
      | Some fd => Some fd
      | None => m_functions it !! x
      end.
Proof.
  revert it. induction l as [|s l IH]; intros it.
  - repeat split; reflexivity.
  - unfold registerFunctions. cbn [fold_left]. fold (registerFunctions l).
    assert (Hskip : (forall fd, s <> SFunctionDefinition fd) ->
              definedIn (s :: l) = definedIn l).
    { intros Hs. destruct s; try reflexivity. destruct (Hs definition eq_refl). }
    destruct s as [e|xs val|xs val|fd|c body|e cases|pre c post body|b];
      try (rewrite Hskip by (intros fd; discriminate); apply IH).
    destruct (IH (withFunctions (<[fd_name fd := fd]> (m_functions it)) it))
      as (Hst & Hv & Hsc & Hf).
    repeat split; try assumption.
    intros x. rewrite Hf.
    change (definedIn (SFunctionDefinition fd :: l)) with (fd :: definedIn l).
    rewrite filter_cons. cbn [m_functions withFunctions].
    destruct (decide (fd_name fd = x)) as [Heq|Hne].
    + rewrite last_cons.
      destruct (last (filter (fun fd0 => fd_name fd0 = x) (definedIn l)));
        [reflexivity|].
      rewrite <- Heq. apply lookup_insert_eq.
    + destruct (last (filter (fun fd0 => fd_name fd0 = x) (definedIn l)));
        [reflexivity|].
      apply lookup_insert_ne. exact Hne.
Qed.

(** X6: before a block runs its first statement, every function that is
    defined by a direct statement of the block is in the function table,
    also one defined after the statement that calls it; of several
    definitions of one name the last one is registered, and definitions
    inside nested blocks are not. The variables are untouched and one
    empty frame is pushed. *)
Theorem block_registers_functions_first (visit : Stmt -> Interp -> result Interp)
  (b : Block Instruction) (it : Interp) :
  exists it1,
    opBlock visit b it = (it2 ← forEach visit (statements b) it1; closeScope it2) /\
    m_state it1 = m_state it /\
    m_variables it1 = m_variables it /\
    m_scopes it1 = m_scopes it ++ [∅] /\
    forall x,
      m_functions it1 !! x
      = match last (filter (fun fd => fd_name fd = x) (definedIn (statements b))) with
        | Some fd => Some fd
        | None => m_functions it !! x
        end.
Proof.
  exists (registerFunctions (statements b) (openScope it)).
  destruct (registerFunctions_spec (statements b) (openScope it))
    as (Hst & Hv & Hsc & Hf).
  split; [reflexivity|]. repeat split; assumption.
Qed.

(** ** Assignment and declaration with a right-hand side *)

Lemma assign_loop_result (pvs : list (Identifier * u256)) (it it' : Interp) :
  forEach assignOne pvs it = Ok it' ->
  it' = withVariables
          (foldl (fun m pv => <[id_name pv.1 := pv.2]> m) (m_variables it) pvs) it.
Proof.
  revert it. induction pvs as [|[p v] pvs IH]; intros it H; cbn in H.
  - injection H as <-. destruct it; reflexivity.
  - bind_inv H. unfold assignOne in Hstep. bind_inv Hstep. injection Hstep as <-.
    apply IH in H. rewrite H. reflexivity.
Qed.

Lemma assign_loop_total (pvs : list (Identifier * u256)) (it : Interp) :
  (forall p, p ∈ pvs.*1 -> is_Some (m_variables it !! id_name p)) ->
  exists it', forEach assignOne pvs it = Ok it'.
Proof.
  revert it. induction pvs as [|[p v] pvs IH]; intros it Hbound.
  - eexists. reflexivity.
  - assert (Hone : assignOne (p, v) it
                   = Ok (withVariables (<[id_name p := v]> (m_variables it)) it)).
    { unfold assignOne. cbn. unfold count.
      destruct (Hbound p ltac:(constructor)) as [w ->]. reflexivity. }
    change (forEach assignOne ((p, v) :: pvs) it)
      with (s' ← assignOne (p, v) it; forEach assignOne pvs s').
    rewrite Hone. cbn [mbind result_bind]. apply IH.
    intros q Hq. cbn.
    destruct (decide (id_name p = id_name q)) as [Heq|Hne].
    + rewrite Heq, lookup_insert_eq. eexists. reflexivity.
    + rewrite lookup_insert_ne by exact Hne.
      apply Hbound. apply elem_of_cons. right. exact Hq.
Qed.

Lemma assigned_lookup_None (pvs : list (Identifier * u256)) (a : gmap string u256)
  (x : string) :
  x ∉ (id_name <$> pvs.*1) ->
  foldl (fun m pv => <[id_name pv.1 := pv.2]> m) a pvs !! x = a !! x.
Proof.
  revert a. induction pvs as [|[p v] pvs IH]; intros a Hx; cbn; [reflexivity|].
  cbn in Hx. apply not_elem_of_cons in Hx as [Hne Hx].
  rewrite IH by exact Hx. apply lookup_insert_ne. congruence.
Qed.

Lemma assigned_lookup_Some (xs : list Identifier) (vs : list u256)
  (a : gmap string u256) (i : nat) (p : Identifier) (v : u256) :
  NoDup (id_name <$> xs) -> xs !! i = Some p -> vs !! i = Some v ->
  foldl (fun m pv => <[id_name pv.1 := pv.2]> m) a (zip xs vs) !! id_name p = Some v.
Proof.
  revert vs a i. induction xs as [|q xs IH]; intros vs a i Hnd Hp Hv; [discriminate|].
  destruct vs as [|w vs]; [rewrite lookup_nil in Hv; discriminate|].
  cbn in Hnd. apply NoDup_cons in Hnd as [Hq Hnd]. cbn.
  destruct i as [|i]; cbn in Hp, Hv.
  - injection Hp as ->. injection Hv as ->.
    rewrite assigned_lookup_None; [apply lookup_insert_eq|].
    intros Hin. apply Hq.
    apply list_elem_of_fmap in Hin as (p' & -> & Hin).
    apply list_elem_of_fmap in Hin as ([p'' v''] & -> & Hin). cbn.
    apply list_elem_of_fmap. exists p''. split; [reflexivity|].
    apply elem_of_zip_l in Hin. exact Hin.
  - exact (IH vs _ i Hnd Hp Hv).
Qed.

(** X7: an assignment whose right-hand side evaluates to a number of
    values other than the number of target names is fatal. With the same
    number, it succeeds exactly when every target is a bound variable;
    then no binding is created or removed, each of pairwise different
    targets reads the value at its position, every other variable is as
    before, and the function table and scope stack are untouched. *)
Theorem assignment_contract (n : nat) (xs : list Identifier) (e : Expr)
  (it it1 : Interp) (vals : list u256) :
  evaluateMulti (visitExpression eval n) e it = Ok (vals, it1) ->
  let run := visitStatement eval (S n) (SAssignment xs (Some e)) it in
  (length vals <> length xs -> run = Fatal) /\
  (length vals = length xs ->
   (forall x, x ∈ xs -> is_Some (m_variables it !! id_name x)) ->
   exists it', run = Ok it') /\
  (forall it', run = Ok it' ->
     length vals = length xs /\
     dom (m_variables it') = dom (m_variables it) /\
     (forall x, x ∈ xs -> is_Some (m_variables it !! id_name x)) /\
     (forall y, y ∉ (id_name <$> xs) -> m_variables it' !! y = m_variables it !! y) /\
     (NoDup (id_name <$> xs) ->
      forall i x v, xs !! i = Some x -> vals !! i = Some v ->
                    m_variables it' !! id_name x = Some v) /\
     m_functions it' = m_functions it /\
     m_scopes it' = m_scopes it /\
     m_state it' = m_state it1).
Proof.
  intros He run. subst run.
  rewrite visitStatement_S, (opAssignment_Some _ _ _ _ _ _ He).
  destruct (evaluateMulti_inv _ _ _ _ _ He) as [st ->].
  destruct (length vals =? length xs)%nat eqn:Hlen.
  - apply Nat.eqb_eq in Hlen.
    assert (Hfst : (zip xs vals).*1 = xs) by (apply fst_zip; lia).
    split; [intros Hne; contradiction|]. split.
    + intros _ Hbound. apply assign_loop_total. rewrite Hfst. exact Hbound.
    + intros it' H. pose proof (assign_loop_Ok _ _ _ H) as [Hdom Hbound].
      apply assign_loop_result in H. subst it'. rewrite Hfst in Hbound. cbn in *.
      repeat split; try assumption; try reflexivity.
      * intros y Hy. apply assigned_lookup_None. rewrite Hfst. exact Hy.
      * intros Hnd i x v Hx Hv. exact (assigned_lookup_Some _ _ _ _ _ _ Hnd Hx Hv).
  - apply Nat.eqb_neq in Hlen.
    split; [reflexivity|]. split; [intros Heq; contradiction|].
    intros it' H. discriminate.
Qed.

Lemma declare_loop_NoDup (pvs : list (TypedName * u256)) (it it' : Interp) :
  forEach declareOne pvs it = Ok it' -> NoDup (names pvs.*1).
Proof.
  revert it. induction pvs as [|[p v] pvs IH]; intros it H; cbn in H.
  - constructor.
  - bind_inv H. unfold declareOne in Hstep. bind_inv Hstep. injection Hstep as <-.
    cbn. apply NoDup_cons. split; [|exact (IH _ H)].
    apply declare_loop_Ok in H as (_ & _ & Hfresh & _).
    intros Hin. apply list_elem_of_fmap in Hin as (q & Hq & Hqin).
    specialize (Hfresh q Hqin). cbn in Hfresh.
    rewrite <- Hq, lookup_insert_eq in Hfresh. discriminate.
Qed.

(** X8: a declaration whose initializer evaluates to a number of values
    other than the number of declared names is fatal. With the same
    number, it succeeds exactly when the declared names are pairwise
    different and none is bound; then each declared name reads the value
    at its position, every other variable is as before, and the function
    table and the scope stack, frames included, are untouched. *)
Theorem declaration_contract (n : nat) (vars : list TypedName) (e : Expr)
  (it it1 : Interp) (vals : list u256) :
  evaluateMulti (visitExpression eval n) e it = Ok (vals, it1) ->
  let run := visitStatement eval (S n) (SVariableDeclaration vars (Some e)) it in
  (length vals <> length vars -> run = Fatal) /\
  (length vals = length vars ->
   NoDup (names vars) ->
   (forall x, x ∈ names vars -> m_variables it !! x = None) ->
   exists it', run = Ok it') /\
  (forall it', run = Ok it' ->
     length vals = length vars /\
     NoDup (names vars) /\
     (forall x, x ∈ names vars -> m_variables it !! x = None) /\
     (forall i x v, vars !! i = Some x -> vals !! i = Some v ->
                    m_variables it' !! tn_name x = Some v) /\
     (forall y, y ∉ names vars -> m_variables it' !! y = m_variables it !! y) /\
     m_functions it' = m_functions it /\
     m_scopes it' = m_scopes it /\
     m_state it' = m_state it1).
Proof.
  intros He run. subst run.
  rewrite visitStatement_S, (opVariableDeclaration_Some _ _ _ _ _ _ He).
  destruct (evaluateMulti_inv _ _ _ _ _ He) as [st ->].
  destruct (length vals =? length vars)%nat eqn:Hlen.
  - apply Nat.eqb_eq in Hlen.
    assert (Hfst : (zip vars vals).*1 = vars) by (apply fst_zip; lia).
    split; [intros Hne; contradiction|]. split.
    + intros _ Hnd Hfresh. apply declare_loop_total; rewrite Hfst; [exact Hnd|].
      intros p Hp. cbn. apply Hfresh. apply list_elem_of_fmap.
      exists p. split; [reflexivity | exact Hp].
    + intros it' H. pose proof (declare_loop_NoDup _ _ _ H) as Hnd.
      destruct (declare_loop_Ok _ _ _ H) as (Hin & Hout & Hfresh & Hst & Hfn & Hsc).
      rewrite Hfst in Hnd, Hout, Hfresh. cbn in *.
      repeat split; try assumption.
      * intros x Hx. apply list_elem_of_fmap in Hx as (p & -> & Hp). exact (Hfresh p Hp).
      * intros i x v Hx Hv. apply Hin. apply list_elem_of_lookup. exists i.
        apply lookup_zip_Some. split; assumption.
  - apply Nat.eqb_neq in Hlen.
    split; [reflexivity|]. split; [intros Heq; contradiction|].
    intros it' H. discriminate.
Qed.

End Further.

(** * The further properties at concrete inputs of the test machine *)

Lemma evaluateArgs_one_value_each_witness :
  let ev := mkExpressionEvaluator (∅ : Machine.State) ∅ ∅ [] in
  let ev' := mkExpressionEvaluator (∅ : Machine.State) ∅ ∅ [0; 1] in
  evaluateArgs (visitExpression Machine.eval 3) [Machine.num "0"; Machine.num "1"] ev
  = Ok ev' /\
  length (values ev') = 2%nat.
Proof.
  intros ev ev'.
  assert (H : evaluateArgs (visitExpression Machine.eval 3)
                [Machine.num "0"; Machine.num "1"] ev = Ok ev')
    by (vm_compute; reflexivity).
  split; [exact H|].
  exact (evaluateArgs_one_value_each (visitExpression Machine.eval 3) _ ev ev' H).
Defined.

Lemma expression_value_count_witness :
  let ev := mkExpressionEvaluator (∅ : Machine.State) ∅ {["f" := Machine.factorial]} [] in
  let ev' := mkExpressionEvaluator (∅ : Machine.State) ∅ {["f" := Machine.factorial]} [120] in
  visitExpression Machine.eval 30 (Machine.call "f" [Machine.num "5"]) ev = Ok ev' /\
  exists fn, ev_functions ev !! "f" = Some fn /\
             length (values ev') = length (fd_returnVariables fn).
Proof.
  intros ev ev'.
  assert (H : visitExpression Machine.eval 30 (Machine.call "f" [Machine.num "5"]) ev
              = Ok ev') by (vm_compute; reflexivity).
  split; [exact H|].
  exact (expression_value_count Machine.eval 30 _ ev ev' H).
Defined.

Lemma single_value_needs_one_return_witness :
  let it : @Interpreter Machine.Instruction Machine.State :=
    mkInterpreter ∅ ∅ {["f" := Machine.factorial]} in
  evaluate (visitExpression Machine.eval 30)
    (EFunctionCall (mkIdentifier "f") [Machine.num "5"]) it = Ok (120, it) /\
  exists fn, m_functions it !! "f" = Some fn /\ length (fd_returnVariables fn) = 1%nat.
Proof.
  intros it.
  assert (H : evaluate (visitExpression Machine.eval 30)
                (EFunctionCall (mkIdentifier "f") [Machine.num "5"]) it = Ok (120, it))
    by (vm_compute; reflexivity).
  split; [exact H|].
  exact (single_value_needs_one_return Machine.eval 30 (mkIdentifier "f") _ it it 120 H).
Defined.

Lemma statements_never_unbind_witness :
  let it' : @Interpreter Machine.Instruction Machine.State :=
    mkInterpreterFull ∅ {["x" := 1]} ∅ [∅] in
  framesEmpty Machine.fresh /\
  visitStatement Machine.eval 4 (Machine.scoped "1") Machine.fresh = Ok it' /\
  dom (m_variables Machine.fresh) ⊆ dom (m_variables it') /\
  (length (m_scopes Machine.fresh) < length (m_scopes it'))%nat.
Proof.
  intros it'.
  assert (H1 : framesEmpty Machine.fresh) by constructor.
  assert (H2 : visitStatement Machine.eval 4 (Machine.scoped "1") Machine.fresh = Ok it')
    by (vm_compute; reflexivity).
  split; [exact H1|]. split; [exact H2|].
  destruct (statements_never_unbind Machine.eval 4 _ _ _ H1 H2)
    as (Hv & _ & _ & _ & Hb).
  split; [exact Hv | exact (Hb _ eq_refl)].
Defined.

Lemma closeScope_erases_frame_witness :
  let it : @Interpreter Machine.Instruction Machine.State :=
    mkInterpreterFull ∅ {["x" := 1; "y" := 2]} ∅ [{["x"]}] in
  last (m_scopes it) = Some {["x"]} /\
  (forall x, x ∈ ({["x"]} : gset string) ->
     (count (m_variables it) x + count (m_functions it) x = 1)%nat) /\
  exists it', closeScope it = Ok it' /\
              m_variables it' !! "x" = None /\
              m_variables it' !! "y" = Some 2 /\
              closeScope it' = Fatal.
Proof.
  intros it.
  assert (H1 : last (m_scopes it) = Some {["x"]}) by reflexivity.
  assert (H2 : forall x, x ∈ ({["x"]} : gset string) ->
                 (count (m_variables it) x + count (m_functions it) x = 1)%nat).
  { intros x Hx. apply elem_of_singleton in Hx. subst x. vm_compute. reflexivity. }
  split; [exact H1|]. split; [exact H2|].
  destruct (proj1 (closeScope_erases_frame it {["x"]} H1) H2)
    as (it' & Hrun & Hv & _ & _ & _ & Hagain).
  exists it'. split; [exact Hrun|]. split; [|split].
  - rewrite Hv. rewrite decide_True by (apply elem_of_singleton; reflexivity).
    reflexivity.
  - rewrite Hv. rewrite decide_False; [vm_compute; reflexivity|].
    intros Hin. apply elem_of_singleton in Hin. discriminate.
  - apply Hagain. intros Hempty.
    assert (Hin : "x" ∈ ({["x"]} : gset string)) by (apply elem_of_singleton; reflexivity).
    rewrite Hempty in Hin. apply not_elem_of_empty in Hin. exact Hin.
Defined.

Lemma assignment_contract_witness :
  let it : @Interpreter Machine.Instruction Machine.State :=
    mkInterpreter ∅ {["x" := 1]} ∅ in
  evaluateMulti (visitExpression Machine.eval 1) (Machine.num "5") it = Ok ([5], it) /\
  (exists it',
     visitStatement Machine.eval 2 (Machine.assign ["x"] (Machine.num "5")) it = Ok it') /\
  visitStatement Machine.eval 2 (Machine.assign ["x"; "x"] (Machine.num "5")) it = Fatal.
Proof.
  intros it.
  assert (H : evaluateMulti (visitExpression Machine.eval 1) (Machine.num "5") it
              = Ok ([5], it)) by (vm_compute; reflexivity).
  split; [exact H|]. split.
  - apply (proj1 (proj2 (assignment_contract Machine.eval 1
                           [mkIdentifier "x"] _ it it [5] H)) eq_refl).
    intros x Hx. apply list_elem_of_singleton in Hx. subst x.
    eexists. vm_compute. reflexivity.
  - apply (proj1 (assignment_contract Machine.eval 1
                    [mkIdentifier "x"; mkIdentifier "x"] _ it it [5] H)).
    cbn. discriminate.
Defined.

Lemma declaration_contract_witness :
  evaluateMulti (visitExpression Machine.eval 1) (Machine.num "5") Machine.fresh
  = Ok ([5], Machine.fresh) /\
  visitStatement Machine.eval 2 (Machine.letv ["a"; "b"] (Machine.num "5")) Machine.fresh
  = Fatal /\
  exists it',
    visitStatement Machine.eval 2 (Machine.letv ["a"] (Machine.num "5")) Machine.fresh
    = Ok it'.
Proof.
  assert (H : evaluateMulti (visitExpression Machine.eval 1) (Machine.num "5")
                Machine.fresh = Ok ([5], Machine.fresh)) by (vm_compute; reflexivity).
  split; [exact H|]. split.
  - apply (proj1 (declaration_contract Machine.eval 1
                    [Machine.tn "a"; Machine.tn "b"] _ _ _ [5] H)).
    cbn. discriminate.
  - apply (proj1 (proj2 (declaration_contract Machine.eval 1
                           [Machine.tn "a"] _ _ _ [5] H)) eq_refl).
    + cbn. apply NoDup_singleton.
    + intros x _. apply lookup_empty.
Defined.
